(** * analytics_mcp.utils: TTL cache, memoization wrapper and retry executor

    A shallow embedding of [analytics_mcp/utils/cache.py] and
    [analytics_mcp/utils/google_retry.py].

    Conventions of the embedding:
    - timestamps and durations (Python floats, in seconds) are rationals [Q];
      the one float operation of the code that can raise, the conversion of
      [2 ** attempt] to a float in [base * (2 ** attempt)], raises its
      [OverflowError];
    - values are plain data: [None], integers, strings, tuples, lists, sets
      and dicts; the hashable ones among them ([Key]) are what dict keys,
      set elements and cache keys are made of;
    - a Python [dict] is an association list in insertion order, whose keys
      are pairwise distinct ([dict_wf]);
    - a Python [set] is the list of its elements in iteration order;
    - a call that may raise returns a [result];
    - [sorted] is a stable sort that compares with [<] only and lets the
      [TypeError] of a comparison through;
    - [time.time()], [time.sleep], [random.uniform] and the wrapped callables
      act on an explicit environment that is threaded through the calls;
      the [while True] loop of [call_with_retry] runs on fuel. *)

From Stdlib Require Import String Ascii.
From Stdlib Require Import List ZArith QArith Qminmax Lia Lqa Bool.
From Stdlib Require Import Permutation Sorted.
Import ListNotations.

Set Warnings "-register-all".
Local Open Scope Q_scope.

(** ** Python values *)

(** Hashable plain values: what can be a dict key, a set element or a cache
    key. *)
Inductive Key : Type :=
| KNone
| KInt (z : Z)
| KStr (s : string)
| KTuple (ks : list Key).

(** Plain structured data, as passed to and returned by the wrapped calls. *)
Inductive PyVal : Type :=
| PNone
| PInt (z : Z)
| PStr (s : string)
| PTuple (xs : list PyVal)
| PList (xs : list PyVal)
| PSet (ks : list Key)
| PDict (items : list (Key * PyVal)).

(** What [e.resp] is, for an [HttpError] [e]. *)
Inductive resp_attr : Type :=
| NoResp                          (* [e] has no attribute [resp] *)
| RespWithoutStatus               (* [e.resp] has no [status]: [None], say *)
| RespStatus (status : option Z). (* [e.resp.status] *)

(** An [HttpError], as far as the retry executor looks into it. *)
Record HttpErr : Type := mkHttpErr {
  status_code : option Z;   (* getattr(e, "status_code", None) *)
  resp : resp_attr          (* e.resp *)
}.

Inductive exn : Type :=
| TypeError
| ValueError
| HttpError (e : HttpErr)
| OtherError (name : string).

Inductive result (A : Type) : Type :=
| Ok (a : A)
| Raise (e : exn).
Arguments Ok {A} a.
Arguments Raise {A} e.

Definition bind {A B} (r : result A) (k : A -> result B) : result B :=
  match r with
  | Ok a => k a
  | Raise e => Raise e
  end.

Notation "x <- r ;; k" := (bind r (fun x => k))
  (at level 61, r at next level, right associativity).

(** [a < b] on floats, as a boolean. *)
Definition Qltb (a b : Q) : bool := negb (Qle_bool b a).

(** ** Equality and order on hashable values *)

(** Python [==] on hashable plain values: structural. *)
Fixpoint key_eqb (x y : Key) : bool :=
  match x, y with
  | KNone, KNone => true
  | KInt a, KInt b => (a =? b)%Z
  | KStr a, KStr b => String.eqb a b
  | KTuple xs, KTuple ys =>
      (fix all2 (xs ys : list Key) : bool :=
         match xs, ys with
         | [], [] => true
         | a :: xs', b :: ys' => key_eqb a b && all2 xs' ys'
         | _, _ => false
         end) xs ys
  | _, _ => false
  end.

(** Python [<]: integers and strings among themselves, tuples
    lexicographically (the first position whose elements are not [==]
    decides); anything else raises [TypeError]. *)
Fixpoint key_lt (x y : Key) : result bool :=
  match x, y with
  | KInt a, KInt b => Ok (a <? b)%Z
  | KStr a, KStr b => Ok (String.ltb a b)
  | KTuple xs, KTuple ys =>
      (fix lex (xs ys : list Key) : result bool :=
         match xs, ys with
         | [], [] => Ok false
         | [], _ :: _ => Ok true
         | _ :: _, [] => Ok false
         | a :: xs', b :: ys' =>
             if key_eqb a b then lex xs' ys' else key_lt a b
         end) xs ys
  | _, _ => Raise TypeError
  end.

(** ** Python dicts, in insertion order *)

Section Dict.
Context {V : Type}.

Definition dict : Type := list (Key * V).

(** [d.get(k)] *)
Fixpoint dict_get (k : Key) (d : dict) : option V :=
  match d with
  | [] => None
  | (k', v) :: d' => if key_eqb k' k then Some v else dict_get k d'
  end.

(** [d[k] = v]: an existing key keeps its position, a new one goes last. *)
Fixpoint dict_setitem (k : Key) (v : V) (d : dict) : dict :=
  match d with
  | [] => [(k, v)]
  | (k', v') :: d' =>
      if key_eqb k' k then (k', v) :: d' else (k', v') :: dict_setitem k v d'
  end.

(** [d.pop(k, None)], the popped value dropped. *)
Fixpoint dict_pop (k : Key) (d : dict) : dict :=
  match d with
  | [] => []
  | (k', v') :: d' => if key_eqb k' k then d' else (k', v') :: dict_pop k d'
  end.

Definition dict_keys (d : dict) : list Key := map fst d.

Definition dict_wf (d : dict) : Prop := NoDup (dict_keys d).
End Dict.
Arguments dict V : clear implicits.

(** ** TTLCache *)

Module TTLCache.

Record t : Type := mk {
  maxsize : Z;
  ttl : Q;
  _store : dict (Q * PyVal)
}.

(** [TTLCache(maxsize, ttl)] *)
Definition init (maxsize : Z) (ttl : Q) : t := mk maxsize ttl [].

Definition with_store (c : t) (s : dict (Q * PyVal)) : t :=
  mk (maxsize c) (ttl c) s.

(** [min(self._store, key=lambda k: self._store[k][0])]: the first key, in
    iteration order, whose expiry is minimal; [None] stands for the
    [ValueError] of [min] on an empty dict. *)
Definition min_step (best : Key * Q) (it : Key * (Q * PyVal)) : Key * Q :=
  if Qltb (fst (snd it)) (snd best) then (fst it, fst (snd it)) else best.

Definition oldest (s : dict (Q * PyVal)) : option (Key * Q) :=
  match s with
  | [] => None
  | (k, (e, _)) :: s' => Some (fold_left min_step s' (k, e))
  end.

Definition _evict_if_needed (c : t) : result t :=
  if (Z.of_nat (length (_store c)) <=? maxsize c)%Z then Ok c
  else
    match oldest (_store c) with
    | None => Raise ValueError
    | Some (oldest_key, _) => Ok (with_store c (dict_pop oldest_key (_store c)))
    end.

(** [get], with [now] the reading of [time.time()]; returns the value
    ([PNone] for Python's [None]) and the cache as the call leaves it.  A
    record is a pair, hence truthy: [not rec] holds for a missing key only. *)
Definition get (now : Q) (key : Key) (c : t) : PyVal * t :=
  match dict_get key (_store c) with
  | None => (PNone, c)
  | Some (expiry, value) =>
      if Qltb expiry now
      then (PNone, with_store c (dict_pop key (_store c)))
      else (value, c)
  end.

(** [set], with [now] the reading of [time.time()]. *)
Definition set (now : Q) (key : Key) (value : PyVal) (c : t) : result t :=
  _evict_if_needed
    (with_store c (dict_setitem key (now + ttl c, value) (_store c))).

(** A history of calls on one cache object, each with the reading of the
    clock it sees. *)
Inductive op : Type :=
| OpSet (now : Q) (key : Key) (value : PyVal)
| OpGet (now : Q) (key : Key).

Definition step (c : t) (o : op) : result t :=
  match o with
  | OpSet now key value => set now key value c
  | OpGet now key => Ok (snd (get now key c))
  end.

Fixpoint run_ops (ops : list op) (c : t) : result t :=
  match ops with
  | [] => Ok c
  | o :: ops' => c' <- step c o ;; run_ops ops' c'
  end.

Definition size (c : t) : Z := Z.of_nat (length (_store c)).

(** The invariant of a cache object: distinct keys, at most [maxsize]
    entries. *)
Definition inv (c : t) : Prop :=
  dict_wf (_store c) /\ (size c <= maxsize c)%Z.

End TTLCache.

(** ** Induction on hashable values *)

Section KeyInd.
Variable P : Key -> Prop.
Hypothesis HNone : P KNone.
Hypothesis HInt : forall z, P (KInt z).
Hypothesis HStr : forall s, P (KStr s).
Hypothesis HTuple : forall ks, Forall P ks -> P (KTuple ks).

Fixpoint Key_nested_ind (k : Key) : P k :=
  match k with
  | KNone => HNone
  | KInt z => HInt z
  | KStr s => HStr s
  | KTuple ks =>
      HTuple ks
        ((fix all (l : list Key) : Forall P l :=
            match l with
            | [] => Forall_nil P
            | x :: l' => Forall_cons x (Key_nested_ind x) (all l')
            end) ks)
  end.
End KeyInd.

Section PyValInd.
Variable P : PyVal -> Prop.
Hypothesis HNone : P PNone.
Hypothesis HInt : forall z, P (PInt z).
Hypothesis HStr : forall s, P (PStr s).
Hypothesis HTuple : forall xs, Forall P xs -> P (PTuple xs).
Hypothesis HList : forall xs, Forall P xs -> P (PList xs).
Hypothesis HSet : forall ks, P (PSet ks).
Hypothesis HDict :
  forall items, Forall (fun kv => P (snd kv)) items -> P (PDict items).

Fixpoint PyVal_nested_ind (v : PyVal) : P v :=
  let all :=
    fix all (l : list PyVal) : Forall P l :=
      match l with
      | [] => Forall_nil P
      | x :: l' => Forall_cons x (PyVal_nested_ind x) (all l')
      end in
  match v with
  | PNone => HNone
  | PInt z => HInt z
  | PStr s => HStr s
  | PTuple xs => HTuple xs (all xs)
  | PList xs => HList xs (all xs)
  | PSet ks => HSet ks
  | PDict items =>
      HDict items
        ((fix alld (l : list (Key * PyVal))
            : Forall (fun kv => P (snd kv)) l :=
            match l with
            | [] => Forall_nil _
            | (k, x) :: l' =>
                Forall_cons (k, x) (PyVal_nested_ind x : P (snd (k, x)))
                  (alld l')
            end) items)
  end.
End PyValInd.

(** ** Argument freezing *)

(** Python's [sorted]: a stable comparison sort that only uses [<] and lets
    the [TypeError] of a comparison through. *)
Fixpoint insort (x : Key) (l : list Key) : result (list Key) :=
  match l with
  | [] => Ok [x]
  | y :: l' =>
      b <- key_lt y x ;;
      if b then (r <- insort x l' ;; Ok (y :: r)) else Ok (x :: y :: l')
  end.

Fixpoint sorted (l : list Key) : result (list Key) :=
  match l with
  | [] => Ok []
  | x :: l' => s <- sorted l' ;; insort x s
  end.

(** [_freeze] on a value that is already hashable: a tuple is rebuilt from
    its frozen elements, a scalar is returned as it is. *)
Fixpoint freeze_key (k : Key) : Key :=
  match k with
  | KTuple ks => KTuple (map freeze_key ks)
  | _ => k
  end.

(** A generator expression consumed into a sequence: the elements are
    computed in order and the first exception ends it. *)
Definition mapM {X Y : Type} (f : X -> result Y) : list X -> result (list Y) :=
  fix each (l : list X) : result (list Y) :=
    match l with
    | [] => Ok []
    | x :: l' => y <- f x ;; rest <- each l' ;; Ok (y :: rest)
    end.

Fixpoint _freeze (obj : PyVal) : result Key :=
  match obj with
  | PDict items =>
      pairs <- mapM (fun kv => fv <- _freeze (snd kv) ;;
                               Ok (KTuple [fst kv; fv])) items ;;
      s <- sorted pairs ;;
      Ok (KTuple s)
  | PList xs | PTuple xs =>
      fs <- mapM _freeze xs ;;
      Ok (KTuple fs)
  | PSet ks => Ok (KTuple (map freeze_key ks))
  | PNone => Ok KNone
  | PInt z => Ok (KInt z)
  | PStr s => Ok (KStr s)
  end.

(** [(k, _freeze(v))] for one item of a dict. *)
Definition freeze_item (kv : Key * PyVal) : result Key :=
  fv <- _freeze (snd kv) ;; Ok (KTuple [fst kv; fv]).

(** [a < b] holds, without raising. *)
Definition key_less (a b : Key) : Prop := key_lt a b = Ok true.

(** Two outcomes that agree up to the order of the elements. *)
Definition same_up_to_order (r1 r2 : result (list Key)) : Prop :=
  match r1, r2 with
  | Ok a, Ok b => Permutation a b
  | Raise e1, Raise e2 => e1 = e2
  | _, _ => False
  end.

(** The [**kwargs] dict of a call: its keys are strings. *)
Definition kwargs_dict (kwargs : list (string * PyVal)) : PyVal :=
  PDict (map (fun kv => (KStr (fst kv), snd kv)) kwargs).

(** [(fn.__module__, fn.__name__, _freeze(args), _freeze(kwargs))] *)
Definition make_key (fn_module fn_name : string)
    (args : list PyVal) (kwargs : list (string * PyVal)) : result Key :=
  fa <- _freeze (PTuple args) ;;
  fk <- _freeze (kwargs_dict kwargs) ;;
  Ok (KTuple [KStr fn_module; KStr fn_name; fa; fk]).

(** ** ttl_memoize *)

Section Memoize.
(** The environment of the wrapped function: everything it reads and
    changes, the clock included.  The cache is not part of it. *)
Variable Env : Type.
Variable time_time : Env -> Q.
Variable fn_module fn_name : string.
Variable fn : list PyVal -> list (string * PyVal) -> Env -> result PyVal * Env.

Record world : Type := mkWorld {
  env : Env;
  cache : TTLCache.t;     (* the cache object the decorator closes over *)
  calls : nat             (* how often [fn] has been invoked *)
}.

Definition is_none (v : PyVal) : bool :=
  match v with
  | PNone => true
  | _ => false
  end.

Definition wrapper (args : list PyVal) (kwargs : list (string * PyVal))
    (w : world) : result (PyVal * bool) * world :=
  match make_key fn_module fn_name args kwargs with
  | Raise e => (Raise e, w)
  | Ok key =>
      let (hit, c1) := TTLCache.get (time_time (env w)) key (cache w) in
      if negb (is_none hit) then (Ok (hit, true), mkWorld (env w) c1 (calls w))
      else
        let (r, env1) := fn args kwargs (env w) in
        match r with
        | Raise e => (Raise e, mkWorld env1 c1 (S (calls w)))
        | Ok value =>
            match TTLCache.set (time_time env1) key value c1 with
            | Raise e => (Raise e, mkWorld env1 c1 (S (calls w)))
            | Ok c2 => (Ok (value, false), mkWorld env1 c2 (S (calls w)))
            end
        end
  end.

(** [n] calls in a row with the same arguments; the results, oldest
    first, and the final world. *)
Fixpoint repeat_calls (n : nat) (args : list PyVal)
    (kwargs : list (string * PyVal)) (w : world)
    : list (result (PyVal * bool)) * world :=
  match n with
  | O => ([], w)
  | S n' =>
      let (r, w1) := wrapper args kwargs w in
      let (rs, w2) := repeat_calls n' args kwargs w1 in
      (r :: rs, w2)
  end.
End Memoize.

Arguments env {Env} w.
Arguments cache {Env} w.
Arguments calls {Env} w.
Arguments mkWorld {Env} env cache calls.

(** ** call_with_retry *)

Definition TRANSIENT_CODES : list Z := [429; 500; 502; 503; 504]%Z.

(** [e.resp.status if hasattr(e, "resp") else None]: reading [status] off a
    [resp] that has none raises [AttributeError]. *)
Definition resp_status (e : HttpErr) : result (option Z) :=
  match resp e with
  | NoResp => Ok None
  | RespWithoutStatus => Raise (OtherError "AttributeError")
  | RespStatus status => Ok status
  end.

(** [getattr(e, "status_code", None) or (e.resp.status if hasattr(e, "resp")
    else None)]: a missing, [None] or zero [status_code] falls through to the
    response's status. *)
Definition extract_code (e : HttpErr) : result (option Z) :=
  match status_code e with
  | Some c => if (c =? 0)%Z then resp_status e else Ok (Some c)
  | None => resp_status e
  end.

(** [code in TRANSIENT_CODES] *)
Definition is_transient (code : option Z) : bool :=
  match code with
  | Some c => existsb (Z.eqb c) TRANSIENT_CODES
  | None => false
  end.

Section Retry.
Variable A : Type.
(** The environment of the remote call. *)
Variable Env : Type.
Variable request_exec : Env -> result A * Env.
(** What [time.sleep(d)] does to the environment, for [d >= 0]. *)
Variable time_sleep : Q -> Env -> Env.
(** [random_uniform a b k]: the [k]-th draw of [random.uniform(a, b)]. *)
Variable random_uniform : Q -> Q -> nat -> Q.

Variable retries : Z.
(** [base] and [cap] are floats, as their defaults [0.5] and [8.0] are. *)
Variable base cap : Q.

Record run : Type := mkRun {
  renv : Env;
  attempts : nat;       (* invocations of [request_exec] so far *)
  slept : list Q;       (* durations of the sleeps so far, oldest first *)
  draws : nat           (* random numbers drawn so far *)
}.

(** [base * (2 ** attempt)], a float times an int: the int is converted to
    a float first, which raises [OverflowError] from [2 ** 1024] on. *)
Definition scaled_base (attempt : Z) : result Q :=
  if (1024 <=? attempt)%Z then Raise (OtherError "OverflowError")
  else Ok (base * inject_Z (2 ^ attempt)).

(** [min(cap, base * (2 ** attempt))] *)
Definition backoff (attempt : Z) : result Q :=
  p <- scaled_base attempt ;; Ok (Qmin cap p).

(** The [while True] loop, [fuel] bounding its iterations; [None] when the
    fuel runs out. *)
Fixpoint retry_loop (fuel : nat) (attempt : Z) (w : run)
    : option (result A * run) :=
  match fuel with
  | O => None
  | S fuel' =>
      let (r, env1) := request_exec (renv w) in
      let w1 := mkRun env1 (S (attempts w)) (slept w) (draws w) in
      match r with
      | Ok v => Some (Ok v, w1)
      | Raise (HttpError e) =>
          match extract_code e with
          | Raise x => Some (Raise x, w1)   (* raised inside the handler *)
          | Ok code =>
              if is_transient code && (attempt <? retries)%Z then
                match backoff attempt with
                | Raise x => Some (Raise x, w1)
                | Ok delay =>
                    let sleep_s :=
                      delay + random_uniform 0 (1 # 4) (draws w) in
                    let w2 :=
                      mkRun env1 (S (attempts w)) (slept w) (S (draws w)) in
                    (* time.sleep raises ValueError on a negative duration *)
                    if Qltb sleep_s 0 then Some (Raise ValueError, w2)
                    else
                      retry_loop fuel' (attempt + 1)%Z
                        (mkRun (time_sleep sleep_s env1) (S (attempts w))
                           (slept w ++ [sleep_s]) (S (draws w)))
                end
              else Some (Raise (HttpError e), w1)
          end
      | Raise e => Some (Raise e, w1)
      end
  end.

(** At most [retries] retries follow the first attempt. *)
Definition call_with_retry (w : run) : option (result A * run) :=
  retry_loop (S (Z.to_nat retries)) 0%Z w.
End Retry.

Arguments renv {Env} r.
Arguments attempts {Env} r.
Arguments slept {Env} r.
Arguments draws {Env} r.
Arguments mkRun {Env} renv attempts slept draws.


(** ** The resolver's string helpers

    [analytics_mcp/tools/resolver.py].  A Python [str] is the sequence of
    its characters, for characters with code points below 256. *)

Local Open Scope string_scope.

(** [c.lower()] for one character: the letters A to Z and the accented
    capitals from 192 to 222, the multiplication sign 215 apart, are 32
    below their small forms. *)
Definition lower_char (c : ascii) : ascii :=
  let n := N_of_ascii c in
  if ((65 <=? n) && (n <=? 90)
      || (192 <=? n) && (n <=? 222) && negb (n =? 215))%N
  then ascii_of_N (n + 32)
  else c.

(** [s.lower()] *)
Fixpoint lower (s : string) : string :=
  match s with
  | EmptyString => EmptyString
  | String c s' => String (lower_char c) (lower s')
  end.

(** [s[n:]] *)
Fixpoint drop (n : nat) (s : string) : string :=
  match n, s with
  | O, _ => s
  | S _, EmptyString => EmptyString
  | S n', String _ s' => drop n' s'
  end.

(** [s.rstrip('/')] *)
Fixpoint rstrip_slash (s : string) : string :=
  match s with
  | EmptyString => EmptyString
  | String c s' =>
      match rstrip_slash s' with
      | EmptyString => if Ascii.eqb c "/" then EmptyString
                       else String c EmptyString
      | r => String c r
      end
  end.

(** [s.split(sep, 1)] for a separator that is not empty: what stands before
    and after the first occurrence of [sep], [None] when there is none (the
    list then has one element only). *)
Fixpoint split_once (sep s : string) : option (string * string) :=
  if String.prefix sep s then Some (EmptyString, drop (String.length sep) s)
  else
    match s with
    | EmptyString => None
    | String c s' =>
        match split_once sep s' with
        | Some (before, after) => Some (String c before, after)
        | None => None
        end
    end.

Definition _normalize_domain (domain_or_url : string) : result string :=
  if String.eqb domain_or_url "" then Ok ""
  else
    s1 <- (if String.prefix "http://" domain_or_url
              || String.prefix "https://" domain_or_url
           then
             (* domain_or_url.split('://', 1)[1] *)
             match split_once "://" domain_or_url with
             | Some (_, after) => Ok after
             | None => Raise (OtherError "IndexError")
             end
           else Ok domain_or_url) ;;
    let s2 := if String.prefix "www." s1 then drop 4 s1 else s1 in
    Ok (lower (rstrip_slash s2)).

(** [c.isspace()] *)
Definition is_space (c : ascii) : bool :=
  let n := N_of_ascii c in
  ((9 <=? n) && (n <=? 13) || (28 <=? n) && (n <=? 32)
   || (n =? 133) || (n =? 160))%N.

Fixpoint lstrip (s : string) : string :=
  match s with
  | EmptyString => EmptyString
  | String c s' => if is_space c then lstrip s' else s
  end.

Fixpoint rstrip (s : string) : string :=
  match s with
  | EmptyString => EmptyString
  | String c s' =>
      match rstrip s' with
      | EmptyString => if is_space c then EmptyString else String c EmptyString
      | r => String c r
      end
  end.

(** [s.strip()] *)
Definition strip (s : string) : string := rstrip (lstrip s).

(** [sub in s] *)
Fixpoint contains (sub s : string) : bool :=
  String.prefix sub s
  || match s with
     | EmptyString => false
     | String _ s' => contains sub s'
     end.

(** [s.split('.')] *)
Fixpoint split_dot (s : string) : list string :=
  match s with
  | EmptyString => [EmptyString]
  | String c s' =>
      match split_dot s' with
      | [] => [String c EmptyString]
      | p :: ps =>
          if Ascii.eqb c "." then EmptyString :: p :: ps
          else String c p :: ps
      end
  end.

(** [parts[-2:]] *)
Definition last_two (parts : list string) : list string :=
  skipn (length parts - 2) parts.

Fixpoint strings_eqb (a b : list string) : bool :=
  match a, b with
  | [], [] => true
  | x :: a', y :: b' => String.eqb x y && strings_eqb a' b'
  | _, _ => false
  end.

(** The floats [0.8] and [0.6], as the rationals they are. *)
Definition float_0_8 : Q := 3602879701896397 # 4503599627370496.
Definition float_0_6 : Q := 5404319552844595 # 9007199254740992.

Section FuzzyMatch.
(** [fdiv a b]: the float [a / b] of two lengths, [b] not zero, as the
    rational it is. *)
Variable fdiv : nat -> nat -> Q.

(** Whether the query and the candidate end in the same two dot-separated
    parts. *)
Definition same_domain (query candidate : string) : bool :=
  contains "." query && contains "." candidate
  && (2 <=? length (split_dot query))%nat
  && (2 <=? length (split_dot candidate))%nat
  && strings_eqb (last_two (split_dot query)) (last_two (split_dot candidate)).

(** The [for] loop, from the state [(best_match, best_score)]; [query] is
    lowered and stripped already. *)
Fixpoint fuzzy_loop (threshold : Q) (query : string)
    (candidates : list string) (best_match : option string) (best_score : Q)
    : option string :=
  match candidates with
  | [] => if Qle_bool threshold best_score then best_match else None
  | c0 :: rest =>
      let candidate := strip (lower c0) in
      if String.eqb query candidate then Some candidate
      else
        let st1 :=
          if contains query candidate || contains candidate query then
            let score :=
              if (0 <? String.length candidate)%nat
              then fdiv (String.length query) (String.length candidate)
              else 0%Q in
            if Qltb best_score score then (Some candidate, score)
            else (best_match, best_score)
          else (best_match, best_score) in
        let st2 :=
          if same_domain query candidate then
            if Qltb (snd st1) float_0_8 then (Some candidate, float_0_8)
            else st1
          else st1 in
        fuzzy_loop threshold query rest (fst st2) (snd st2)
  end.

Definition _fuzzy_match (query : string) (candidates : list string)
    (threshold : Q) : option string :=
  if String.eqb query "" then None
  else
    match candidates with
    | [] => None
    | _ => fuzzy_loop threshold (strip (lower query)) candidates None 0%Q
    end.
End FuzzyMatch.

(** How a match relates to the query: equal, one contained in the other,
    or the same last two dot-separated parts. *)
Definition related (query candidate : string) : bool :=
  String.eqb query candidate
  || contains query candidate || contains candidate query
  || same_domain query candidate.

Local Close Scope string_scope.

(** ** Values that can be frozen *)

(** Whether [a < b] can be evaluated. *)
Definition comparableb (a b : Key) : bool :=
  match key_lt a b with
  | Ok _ => true
  | Raise _ => false
  end.

(** Any two different keys of the list can be compared. *)
Definition all_comparable (ks : list Key) : bool :=
  forallb (fun a => forallb (fun b => key_eqb a b || comparableb a b) ks) ks.

Fixpoint distinct (ks : list Key) : bool :=
  match ks with
  | [] => true
  | k :: ks' => negb (existsb (key_eqb k) ks') && distinct ks'
  end.

(** Every dict inside the value has pairwise distinct keys, as every Python
    dict has. *)
Fixpoint well_formed (v : PyVal) : bool :=
  match v with
  | PDict items =>
      distinct (dict_keys items)
      && forallb (fun kv => well_formed (snd kv)) items
  | PList xs | PTuple xs => forallb well_formed xs
  | _ => true
  end.

(** Every dict inside the value has keys that can be compared with one
    another. *)
Fixpoint freezable (v : PyVal) : bool :=
  match v with
  | PDict items =>
      forallb (fun kv => freezable (snd kv)) items
      && all_comparable (dict_keys items)
  | PList xs | PTuple xs => forallb freezable xs
  | _ => true
  end.

(** A hashable value, as a value. *)
Fixpoint key_value (k : Key) : PyVal :=
  match k with
  | KNone => PNone
  | KInt z => PInt z
  | KStr s => PStr s
  | KTuple ks => PTuple (map key_value ks)
  end.

(** [list(d.items())] *)
Definition dict_items (d : list (Key * PyVal)) : PyVal :=
  PList (map (fun kv => PTuple [key_value (fst kv); snd kv]) d).

(** ** Histories and clocks *)

(** The reading of the clock that a call of a history sees. *)
Definition op_time (o : TTLCache.op) : Q :=
  match o with
  | TTLCache.OpSet now _ _ => now
  | TTLCache.OpGet now _ => now
  end.

(** ** Runs of the retry loop *)

Section RetryScript.
Variable A : Type.
Variable Env : Type.
Variable request_exec : Env -> result A * Env.
Variable time_sleep : Q -> Env -> Env.
Variable random_uniform : Q -> Q -> nat -> Q.
Variable base cap : Q.

(** The environment after [k] attempts in a row that each fail with a
    transient status, each followed by a sleep of
    [min(cap, base * 2 ** attempt)] plus jitter, starting at attempt number
    [attempt] with [d] random numbers drawn so far; [None] when one of these
    attempts does not fail that way. *)
Fixpoint after_transient_failures (k : nat) (attempt : Z) (d : nat) (s : Env)
    : option Env :=
  match k with
  | O => Some s
  | S k' =>
      match request_exec s with
      | (Raise (HttpError e), s1) =>
          match extract_code e with
          | Ok code =>
              if is_transient code then
                after_transient_failures k' (attempt + 1)%Z (S d)
                  (time_sleep
                     (Qmin cap (base * inject_Z (2 ^ attempt))
                      + random_uniform 0 (1 # 4) d) s1)
              else None
          | Raise _ => None
          end
      | _ => None
      end
  end.
End RetryScript.

(** The sum of a list of durations. *)
Definition Qsum (l : list Q) : Q := fold_right Qplus 0 l.

(** A remote call that fails with status 503 until the counter it keeps
    reaches 2, and answers 7 from then on. *)
Definition flaky_request (n : nat) : result Z * nat :=
  if (n <? 2)%nat
  then (Raise (HttpError (mkHttpErr (Some 503%Z) (RespStatus (Some 503%Z)))),
        S n)
  else (Ok 7%Z, S n).

Definition no_sleep_nat (d : Q) (n : nat) : nat := n.

(** ** Sample environments *)

(** A remote call that always fails with the given HTTP status. *)
Definition failing_request (code : Z) (s : unit) : result Z * unit :=
  (Raise (HttpError (mkHttpErr (Some code) (RespStatus (Some code)))), s).

(** A remote call that always fails with an [HttpError] made without a
    response, as googleapiclient's [BatchError] can be: no [status_code] to
    read, and a [resp] that is [None]. *)
Definition batch_error_request (s : unit) : result Z * unit :=
  (Raise (HttpError (mkHttpErr None RespWithoutStatus)), s).

Definition no_sleep (d : Q) (s : unit) : unit := s.

Definition fixed_jitter (a b : Q) (k : nat) : Q := 1 # 8.

(** Wrapped functions whose environment is just the clock. *)
Definition returns_none (args : list PyVal) (kwargs : list (string * PyVal))
    (clock : Q) : result PyVal * Q :=
  (Ok PNone, clock).

Definition returns_42 (args : list PyVal) (kwargs : list (string * PyVal))
    (clock : Q) : result PyVal * Q :=
  (Ok (PInt 42), clock).

Definition always_raises (args : list PyVal) (kwargs : list (string * PyVal))
    (clock : Q) : result PyVal * Q :=
  (Raise (OtherError "boom"), clock).

Definition read_clock (clock : Q) : Q := clock.

(** The cache key of [f("q")] for [f] named ["f"] in module ["m"]. *)
Definition sample_key : Key :=
  KTuple [KStr "m"; KStr "f"; KTuple [KStr "q"]; KTuple []].

(** * Lemmas *)


Lemma key_eqb_eq (x y : Key) : key_eqb x y = true <-> x = y.
Proof.
  revert y. induction x as [| a | a | xs IH] using Key_nested_ind;
    intros [| b | b | ys]; simpl; try (split; [discriminate | congruence]).
  - tauto.
  - rewrite Z.eqb_eq. split; congruence.
  - rewrite String.eqb_eq. split; congruence.
  - revert ys. induction IH as [| x xs Hx _ IHxs]; intros [| y ys];
      try (split; [discriminate | congruence]).
    + tauto.
    + rewrite andb_true_iff, Hx, IHxs. split.
      * intros [-> H]. now inversion H.
      * intros H. inversion H. tauto.
Qed.

Lemma key_eqb_refl (x : Key) : key_eqb x x = true.
Proof. now apply key_eqb_eq. Qed.

Lemma key_eqb_neq (x y : Key) : key_eqb x y = false <-> x <> y.
Proof.
  rewrite <- key_eqb_eq. destruct (key_eqb x y); split; congruence.
Qed.

Lemma key_eqb_sym (x y : Key) : key_eqb x y = key_eqb y x.
Proof.
  destruct (key_eqb x y) eqn:E.
  - apply key_eqb_eq in E. subst. symmetry. apply key_eqb_refl.
  - apply key_eqb_neq in E. symmetry. apply key_eqb_neq. congruence.
Qed.

Ltac key_cases :=
  repeat match goal with
    | |- context [key_eqb ?a ?a] => rewrite (key_eqb_refl a)
    | H : context [key_eqb ?a ?a] |- _ => rewrite (key_eqb_refl a) in H
    | H : key_eqb ?a ?b = true |- _ => apply key_eqb_eq in H; subst
    | H : key_eqb ?a ?b = false |- _ => apply key_eqb_neq in H
    | |- context [key_eqb ?a ?b] => destruct (key_eqb a b) eqn:?
    end.

(** ** Comparison of floats *)

Lemma Qltb_lt (a b : Q) : Qltb a b = true <-> a < b.
Proof.
  unfold Qltb. rewrite negb_true_iff. split.
  - intros H. apply Qnot_le_lt. intros Hle.
    apply Qle_bool_iff in Hle. congruence.
  - intros H. destruct (Qle_bool b a) eqn:E; [| reflexivity].
    apply Qle_bool_iff in E. lra.
Qed.

Lemma Qltb_ge (a b : Q) : Qltb a b = false <-> b <= a.
Proof.
  unfold Qltb. rewrite negb_false_iff. apply Qle_bool_iff.
Qed.

(** ** Dicts *)

Section DictFacts.
Context {V : Type}.
Implicit Types (d : dict V) (k : Key) (v : V).

Lemma dict_get_In k v d : dict_get k d = Some v -> In (k, v) d.
Proof.
  induction d as [| [k' v'] d IH]; simpl; [discriminate |].
  destruct (key_eqb k' k) eqn:E.
  - apply key_eqb_eq in E. subst. intros [= ->]. now left.
  - intros H. right. auto.
Qed.

Lemma dict_get_None k d : dict_get k d = None <-> ~ In k (dict_keys d).
Proof.
  induction d as [| [k' v'] d IH]; simpl; [tauto |].
  destruct (key_eqb k' k) eqn:E.
  - apply key_eqb_eq in E. split; [discriminate | tauto].
  - apply key_eqb_neq in E. tauto.
Qed.

Lemma In_dict_get k v d : dict_wf d -> In (k, v) d -> dict_get k d = Some v.
Proof.
  unfold dict_wf. induction d as [| [k' v'] d IH]; simpl; [tauto |].
  intros Hwf [H | H]; inversion Hwf; subst.
  - injection H as -> ->. now rewrite key_eqb_refl.
  - destruct (key_eqb k' k) eqn:E; [| auto].
    apply key_eqb_eq in E. subst.
    exfalso. match goal with Hn : ~ In _ _ |- _ => apply Hn end.
    change k with (fst (k, v)). now apply in_map.
Qed.

Lemma dict_get_setitem_eq k v d : dict_get k (dict_setitem k v d) = Some v.
Proof.
  induction d as [| [k' v'] d IH]; simpl.
  - now rewrite key_eqb_refl.
  - destruct (key_eqb k' k) eqn:E; simpl; now rewrite E.
Qed.

Lemma dict_get_setitem_ne k k' v d :
  k <> k' -> dict_get k' (dict_setitem k v d) = dict_get k' d.
Proof.
  intros Hne. induction d as [| [k0 v0] d IH]; simpl.
  - apply key_eqb_neq in Hne. now rewrite Hne.
  - destruct (key_eqb k0 k) eqn:E; simpl; [| now rewrite IH].
    apply key_eqb_eq in E. subst.
    apply key_eqb_neq in Hne. now rewrite Hne.
Qed.

Lemma dict_setitem_new k v d :
  dict_get k d = None -> dict_setitem k v d = d ++ [(k, v)].
Proof.
  induction d as [| [k' v'] d IH]; simpl; [reflexivity |].
  destruct (key_eqb k' k); [discriminate |].
  intros H. now rewrite IH.
Qed.

Lemma dict_setitem_length_old k v v0 d :
  dict_get k d = Some v0 -> length (dict_setitem k v d) = length d.
Proof.
  induction d as [| [k' v'] d IH]; simpl; [discriminate |].
  destruct (key_eqb k' k); simpl; [reflexivity |].
  intros H. now rewrite IH.
Qed.

Lemma dict_setitem_length_le k v d :
  (length (dict_setitem k v d) <= S (length d))%nat.
Proof.
  induction d as [| [k' v'] d IH]; simpl; [lia |].
  destruct (key_eqb k' k); simpl; lia.
Qed.

Lemma dict_setitem_keys k v d :
  dict_keys (dict_setitem k v d)
  = match dict_get k d with
    | Some _ => dict_keys d
    | None => dict_keys d ++ [k]
    end.
Proof.
  induction d as [| [k' v'] d IH]; simpl; [reflexivity |].
  destruct (key_eqb k' k) eqn:E; simpl; [reflexivity |].
  rewrite IH. now destruct (dict_get k d).
Qed.

Lemma dict_setitem_wf k v d : dict_wf d -> dict_wf (dict_setitem k v d).
Proof.
  unfold dict_wf. intros Hwf. rewrite dict_setitem_keys.
  destruct (dict_get k d) eqn:E; [assumption |].
  apply dict_get_None in E.
  apply (Permutation_NoDup (l := k :: dict_keys d)).
  - apply Permutation_cons_append.
  - now constructor.
Qed.

Lemma dict_get_pop_ne k k' d :
  k <> k' -> dict_get k' (dict_pop k d) = dict_get k' d.
Proof.
  intros Hne. induction d as [| [k0 v0] d IH]; simpl; [reflexivity |].
  destruct (key_eqb k0 k) eqn:E; simpl.
  - apply key_eqb_eq in E. subst.
    apply key_eqb_neq in Hne. now rewrite Hne.
  - now rewrite IH.
Qed.

Lemma dict_pop_keys_incl k d : incl (dict_keys (dict_pop k d)) (dict_keys d).
Proof.
  induction d as [| [k0 v0] d IH]; simpl; [apply incl_refl |].
  destruct (key_eqb k0 k); simpl.
  - apply incl_tl, incl_refl.
  - apply incl_cons; [now left | now apply incl_tl].
Qed.

Lemma dict_pop_wf k d : dict_wf d -> dict_wf (dict_pop k d).
Proof.
  unfold dict_wf. induction d as [| [k0 v0] d IH]; simpl; [auto |].
  intros Hwf. inversion Hwf; subst.
  destruct (key_eqb k0 k); simpl; [assumption |].
  constructor; [| auto].
  intros Hin. now apply dict_pop_keys_incl in Hin.
Qed.

Lemma dict_get_pop_eq k d : dict_wf d -> dict_get k (dict_pop k d) = None.
Proof.
  unfold dict_wf. induction d as [| [k0 v0] d IH]; simpl; [reflexivity |].
  intros Hwf. inversion Hwf; subst.
  destruct (key_eqb k0 k) eqn:E; simpl.
  - apply key_eqb_eq in E. subst. now apply dict_get_None.
  - rewrite E. auto.
Qed.

Lemma dict_pop_length k v d :
  dict_get k d = Some v -> S (length (dict_pop k d)) = length d.
Proof.
  induction d as [| [k0 v0] d IH]; simpl; [discriminate |].
  destruct (key_eqb k0 k); simpl; [reflexivity |].
  intros H. now rewrite IH.
Qed.

Lemma dict_pop_In k d x : In x (dict_pop k d) -> In x d.
Proof.
  induction d as [| [k0 v0] d IH]; simpl; [tauto |].
  destruct (key_eqb k0 k); simpl; tauto.
Qed.

Lemma dict_setitem_In k v d x :
  In x (dict_setitem k v d) -> x = (k, v) \/ In x d.
Proof.
  induction d as [| [k0 v0] d IH]; simpl; [intuition |].
  destruct (key_eqb k0 k) eqn:E; simpl.
  - apply key_eqb_eq in E. subst. intuition.
  - intuition.
Qed.
End DictFacts.

(** ** TTLCache: eviction *)

Module TTLCacheFacts.
Import TTLCache.

Lemma fold_min_spec (s : dict (Q * PyVal)) (init : Key * Q) :
  let r := fold_left min_step s init in
  (r = init \/ exists v, In (fst r, (snd r, v)) s)
  /\ snd r <= snd init
  /\ forall k e v, In (k, (e, v)) s -> snd r <= e.
Proof.
  revert init. induction s as [| [k1 [e1 v1]] s IH]; intros init.
  - simpl. split; [now left |]. split; [lra | tauto].
  - cbn [fold_left]. specialize (IH (min_step init (k1, (e1, v1)))).
    cbv zeta in IH.
    set (r := fold_left min_step s (min_step init (k1, (e1, v1)))) in *.
    destruct IH as (Hin & Hle & Hall).
    assert (Hms : (min_step init (k1, (e1, v1)) = init /\ snd init <= e1)
                  \/ (min_step init (k1, (e1, v1)) = (k1, e1)
                      /\ e1 < snd init)).
    { unfold min_step. simpl. destruct (Qltb e1 (snd init)) eqn:E.
      - right. apply Qltb_lt in E. auto.
      - left. apply Qltb_ge in E. auto. }
    destruct Hms as [[Hms Hcmp] | [Hms Hcmp]]; rewrite Hms in *; simpl in *.
    + repeat split.
      * destruct Hin as [-> | [v Hv]]; [now left | right; eauto].
      * lra.
      * intros k e v [[= -> -> ->] | H]; [lra | eauto].
    + repeat split.
      * destruct Hin as [Hr | [v Hv]]; right; [| eauto].
        rewrite Hr. simpl. eauto.
      * lra.
      * intros k e v [[= -> -> ->] | H]; [lra | eauto].
Qed.

Lemma oldest_spec (s : dict (Q * PyVal)) k0 e0 :
  oldest s = Some (k0, e0) ->
  (exists v0, In (k0, (e0, v0)) s)
  /\ forall k e v, In (k, (e, v)) s -> e0 <= e.
Proof.
  destruct s as [| [k1 [e1 v1]] s]; simpl; [discriminate |].
  intros [= H].
  pose proof (fold_min_spec s (k1, e1)) as Hspec.
  cbv zeta in Hspec. rewrite H in Hspec.
  destruct Hspec as (Hin & Hle & Hall). simpl in *. split.
  - destruct Hin as [[= -> ->] | [v Hv]]; eauto.
  - intros k e v [[= -> -> ->] | Hk]; [lra | eauto].
Qed.

Lemma oldest_nonempty (s : dict (Q * PyVal)) :
  s <> [] -> exists k0 e0, oldest s = Some (k0, e0).
Proof.
  destruct s as [| [k1 [e1 v1]] s]; [congruence |]. intros _. simpl.
  destruct (fold_left min_step s (k1, e1)) as [k0 e0]. eauto.
Qed.

(** A newly appended entry that expires no earlier than the others is
    not the one [min] picks. *)
Lemma oldest_app_last (s : dict (Q * PyVal)) k e v k0 e0 :
  s <> [] ->
  (forall k' e' v', In (k', (e', v')) s -> e' <= e) ->
  oldest (s ++ [(k, (e, v))]) = Some (k0, e0) ->
  In k0 (dict_keys s).
Proof.
  destruct s as [| [k1 [e1 v1]] s]; [congruence |]. intros _ Hall. simpl.
  rewrite fold_left_app. simpl.
  destruct (fold_min_spec s (k1, e1)) as (Hin & Hle & _).
  set (r := fold_left min_step s (k1, e1)) in *. simpl in *.
  unfold min_step at 1. simpl.
  assert (He1 : e1 <= e) by (apply (Hall k1 e1 v1); now left).
  destruct (Qltb e (snd r)) eqn:E; [apply Qltb_lt in E; lra |].
  intros [= Hr]. rewrite Hr in Hin. simpl in Hin.
  destruct Hin as [[= -> ->] | [v0 Hv0]]; [now left | right].
  change k0 with (fst (k0, (e0, v0))). now apply in_map.
Qed.

Lemma dict_setitem_nonempty {V} k (v : V) d : dict_setitem k v d <> [].
Proof.
  destruct d as [| [k' v'] d]; simpl; [discriminate |].
  destruct (key_eqb k' k); discriminate.
Qed.

(** What one [set] does, on any cache. *)
Lemma set_spec now key value c :
  let s1 := dict_setitem key (now + ttl c, value) (_store c) in
  exists c1,
    set now key value c = Ok c1
    /\ maxsize c1 = maxsize c /\ ttl c1 = ttl c
    /\ ((Z.of_nat (length s1) <= maxsize c)%Z -> _store c1 = s1)
    /\ ((maxsize c < Z.of_nat (length s1))%Z ->
        exists k0 e0 v0,
          oldest s1 = Some (k0, e0)
          /\ In (k0, (e0, v0)) s1
          /\ _store c1 = dict_pop k0 s1
          /\ (forall k e v, In (k, (e, v)) s1 -> e0 <= e)).
Proof.
  intros s1. unfold set, _evict_if_needed. simpl. fold s1.
  destruct (Z.of_nat (length s1) <=? maxsize c)%Z eqn:E.
  - apply Z.leb_le in E. eexists. split; [reflexivity |].
    simpl. split; [reflexivity |]. split; [reflexivity |].
    split; [auto | lia].
  - apply Z.leb_gt in E.
    destruct (oldest_nonempty s1) as (k0 & e0 & Hold);
      [apply dict_setitem_nonempty |].
    rewrite Hold. eexists. split; [reflexivity |]. simpl.
    split; [reflexivity |]. split; [reflexivity |].
    split; [lia |]. intros _.
    destruct (oldest_spec _ _ _ Hold) as ([v0 Hv0] & Hall).
    exists k0, e0, v0. auto.
Qed.

Lemma set_inv now key value c c1 :
  inv c -> set now key value c = Ok c1 -> inv c1.
Proof.
  intros [Hwf Hsz] Hset. unfold size in *.
  destruct (set_spec now key value c)
    as (c1' & Hset' & Hm & _ & Hfit & Hevict).
  rewrite Hset in Hset'. injection Hset' as <-.
  set (s1 := dict_setitem key (now + ttl c, value) (_store c)) in *.
  assert (Hwf1 : dict_wf s1) by now apply dict_setitem_wf.
  assert (Hlen : (length s1 <= S (length (_store c)))%nat)
    by apply dict_setitem_length_le.
  unfold inv, size. rewrite Hm.
  destruct (Z_le_gt_dec (Z.of_nat (length s1)) (maxsize c)) as [Hle | Hgt].
  - rewrite (Hfit Hle). auto.
  - destruct Hevict as (k0 & e0 & v0 & _ & Hin & -> & _); [lia |].
    split; [now apply dict_pop_wf |].
    apply (In_dict_get _ _ _ Hwf1) in Hin.
    apply dict_pop_length in Hin. lia.
Qed.

Lemma get_inv now key c : inv c -> inv (snd (get now key c)).
Proof.
  intros [Hwf Hsz]. unfold get.
  destruct (dict_get key (_store c)) as [[e v] |] eqn:E; [| now split].
  destruct (Qltb e now); [| now split]. simpl.
  split; simpl; [now apply dict_pop_wf |].
  unfold size in *. simpl. apply dict_pop_length in E. lia.
Qed.

Lemma run_ops_inv ops c :
  inv c -> exists c', run_ops ops c = Ok c' /\ inv c'
                      /\ maxsize c' = maxsize c /\ ttl c' = ttl c.
Proof.
  revert c. induction ops as [| o ops IH]; intros c Hinv; simpl.
  - eauto.
  - destruct o as [now key value | now key]; simpl.
    + destruct (set_spec now key value c) as (c1 & Hset & Hm & Ht & _).
      rewrite Hset. simpl.
      destruct (IH c1) as (c' & Hrun & Hinv' & Hm' & Ht');
        [eapply set_inv; eauto |].
      exists c'. repeat split; try apply Hinv'; congruence.
    + destruct (IH (snd (get now key c))) as (c' & Hrun & Hinv' & Hm' & Ht');
        [now apply get_inv |].
      exists c'. repeat split; try apply Hinv'; try assumption.
      * rewrite Hm'. unfold get.
        destruct (dict_get key (_store c)) as [[e v] |]; [| reflexivity].
        now destruct (Qltb e now).
      * rewrite Ht'. unfold get.
        destruct (dict_get key (_store c)) as [[e v] |]; [| reflexivity].
        now destruct (Qltb e now).
Qed.

Lemma init_inv maxsize ttl : (0 <= maxsize)%Z -> inv (init maxsize ttl).
Proof.
  intros H. split; simpl; [constructor | unfold size; simpl; lia].
Qed.

(** A [set] on a cache that satisfies its invariant. *)
Lemma set_step c now key value :
  inv c ->
  let s1 := dict_setitem key (now + ttl c, value) (_store c) in
  exists c1,
    set now key value c = Ok c1
    /\ inv c1 /\ maxsize c1 = maxsize c /\ ttl c1 = ttl c
    /\ dict_get key s1 = Some (now + ttl c, value)
    /\ ((Z.of_nat (length s1) <= maxsize c)%Z -> _store c1 = s1)
    /\ ((maxsize c < Z.of_nat (length s1))%Z ->
        exists k0 e0 v0,
          oldest s1 = Some (k0, e0)
          /\ dict_get k0 s1 = Some (e0, v0)
          /\ _store c1 = dict_pop k0 s1
          /\ S (length (_store c1)) = length s1
          /\ (forall k, k <> k0 -> dict_get k (_store c1) = dict_get k s1)
          /\ dict_get k0 (_store c1) = None
          /\ (forall k e v, dict_get k s1 = Some (e, v) -> e0 <= e)).
Proof.
  intros Hinv s1.
  destruct (set_spec now key value c)
    as (c1 & Hset & Hm & Ht & Hfit & Hevict).
  fold s1 in Hfit, Hevict.
  assert (Hwf1 : dict_wf s1) by (apply dict_setitem_wf, Hinv).
  exists c1. split; [assumption |].
  split; [eapply set_inv; eauto |].
  split; [assumption |]. split; [assumption |].
  split; [apply dict_get_setitem_eq |].
  split; [assumption |].
  intros Hgt. destruct (Hevict Hgt) as (k0 & e0 & v0 & Hold & Hin & Hst & Hall).
  apply (In_dict_get _ _ _ Hwf1) in Hin.
  exists k0, e0, v0. rewrite Hst.
  split; [assumption |]. split; [assumption |]. split; [reflexivity |].
  split; [eapply dict_pop_length; eauto |].
  split; [intros k Hk; apply dict_get_pop_ne; congruence |].
  split; [now apply dict_get_pop_eq |].
  intros k e v Hk. apply (Hall k e v). now apply dict_get_In.
Qed.

(** C3. Every [set] of every history on a cache of capacity
    [maxsize >= 0] succeeds and inserts or overwrites the entry; the store
    then holds at most [maxsize] entries; when the insertion makes it
    exceed [maxsize], exactly one entry is removed, and no entry present
    at that moment expires earlier than the removed one. *)
Theorem set_sequence_bounded (maxsize : Z) (ttl : Q) (ops : list op) :
  (0 <= maxsize)%Z ->
  exists c,
    run_ops ops (init maxsize ttl) = Ok c
    /\ (size c <= maxsize)%Z
    /\ forall now key value,
        let s1 := dict_setitem key (now + ttl, value) (_store c) in
        exists c1,
          set now key value c = Ok c1
          /\ (size c1 <= maxsize)%Z
          /\ dict_get key s1 = Some (now + ttl, value)
          /\ ((Z.of_nat (length s1) <= maxsize)%Z -> _store c1 = s1)
          /\ ((maxsize < Z.of_nat (length s1))%Z ->
              exists k0 e0 v0,
                dict_get k0 s1 = Some (e0, v0)
                /\ _store c1 = dict_pop k0 s1
                /\ S (length (_store c1)) = length s1
                /\ (forall k, k <> k0 ->
                      dict_get k (_store c1) = dict_get k s1)
                /\ dict_get k0 (_store c1) = None
                /\ (forall k e v, dict_get k s1 = Some (e, v) -> e0 <= e)).
Proof.
  intros Hmax.
  destruct (run_ops_inv ops (init maxsize ttl)) as (c & Hrun & Hinv & Hm & Ht);
    [now apply init_inv |].
  simpl in Hm, Ht. exists c. split; [assumption |].
  split; [rewrite <- Hm; apply Hinv |].
  intros now key value.
  destruct (set_step c now key value Hinv)
    as (c1 & Hset & Hinv1 & Hm1 & Ht1 & Hget & Hfit & Hevict).
  rewrite Ht, Hm in *. cbv zeta. exists c1.
  split; [assumption |].
  split; [rewrite <- Hm1; apply Hinv1 |].
  split; [assumption |]. split; [assumption |].
  intros Hgt. destruct (Hevict Hgt) as (k0 & e0 & v0 & _ & H).
  exists k0, e0, v0. exact H.
Qed.

Lemma set_sequence_bounded_witness :
  exists c,
    run_ops [OpSet 0 (KInt 1) (PInt 10); OpSet 1 (KInt 2) (PInt 20)]
      (init 1 600) = Ok c
    /\ (size c <= 1)%Z.
Proof.
  destruct (set_sequence_bounded 1 600
              [OpSet 0 (KInt 1) (PInt 10); OpSet 1 (KInt 2) (PInt 20)])
    as (c & Hrun & Hsz & _); [lia |].
  exists c. split; assumption.
Defined.

(** The entry written by a [set] is still there when the [set] returns,
    provided the cache has room for one entry and no entry present expires
    later than the new one. *)
Lemma set_entry_survives (c : t) (t0 : Q) (k : Key) (v : PyVal) :
  inv c ->
  (1 <= maxsize c)%Z ->
  (forall k' e' v', dict_get k' (_store c) = Some (e', v') ->
                    e' <= t0 + ttl c) ->
  exists c1,
    set t0 k v c = Ok c1
    /\ inv c1
    /\ dict_get k (_store c1) = Some (t0 + ttl c, v).
Proof.
  intros Hinv Hmax Hold.
  destruct (set_step c t0 k v Hinv)
    as (c1 & Hset & Hinv1 & Hm1 & Ht1 & Hget & Hfit & Hevict).
  set (s1 := dict_setitem k (t0 + ttl c, v) (_store c)) in *.
  exists c1. split; [assumption |]. split; [assumption |].
  destruct (Z_le_gt_dec (Z.of_nat (length s1)) (maxsize c)) as [Hle | Hgt].
  - now rewrite (Hfit Hle).
  - destruct Hevict as (k0 & e0 & v0 & Hmin & _ & _ & _ & Hother & _);
      [lia |].
    rewrite Hother; [assumption |]. intros ->.
    destruct Hinv as [Hwf Hsz]. unfold size in Hsz.
    destruct (dict_get k0 (_store c)) as [old |] eqn:E.
    + unfold s1 in Hgt.
      rewrite (dict_setitem_length_old _ _ _ _ E) in Hgt. lia.
    + unfold s1 in Hmin. rewrite (dict_setitem_new _ _ _ E) in Hmin.
      apply oldest_app_last in Hmin.
      * now apply dict_get_None in E.
      * intros Hnil. unfold s1 in Hgt.
        rewrite (dict_setitem_new _ _ _ E), Hnil in Hgt. simpl in Hgt. lia.
      * intros k' e' v' Hin. apply (Hold k' e' v').
        now apply In_dict_get.
Qed.

(** C2. On a cache that satisfies its invariant, has room for at least one
    entry and holds no entry that expires after [t0 + ttl]: after
    [set(k, v)] at time [t0], a [get(k)] at any time before [t0 + ttl]
    returns [v] and leaves the cache as it is, and a [get(k)] at any time
    after [t0 + ttl] returns [None] and removes the entry. *)
Theorem get_after_set (c : t) (t0 : Q) (k : Key) (v : PyVal) :
  inv c ->
  (1 <= maxsize c)%Z ->
  (forall k' e' v', dict_get k' (_store c) = Some (e', v') ->
                    e' <= t0 + ttl c) ->
  exists c1,
    set t0 k v c = Ok c1
    /\ dict_get k (_store c1) = Some (t0 + ttl c, v)
    /\ (forall p, p < t0 + ttl c -> get p k c1 = (v, c1))
    /\ (forall p, t0 + ttl c < p ->
          get p k c1 = (PNone, with_store c1 (dict_pop k (_store c1)))
          /\ dict_get k (dict_pop k (_store c1)) = None
          /\ S (length (dict_pop k (_store c1))) = length (_store c1)).
Proof.
  intros Hinv Hmax Hold.
  destruct (set_entry_survives c t0 k v Hinv Hmax Hold)
    as (c1 & Hset & Hinv1 & Hk).
  exists c1. split; [assumption |]. split; [assumption |]. split.
  - intros p Hp. unfold get. rewrite Hk.
    destruct (Qltb (t0 + ttl c) p) eqn:E; [| reflexivity].
    apply Qltb_lt in E. lra.
  - intros p Hp. unfold get. rewrite Hk.
    destruct (Qltb (t0 + ttl c) p) eqn:E.
    + split; [reflexivity |].
      split; [apply dict_get_pop_eq, Hinv1 |].
      eapply dict_pop_length; eauto.
    + apply Qltb_ge in E. lra.
Qed.

Lemma get_after_set_witness :
  exists c1,
    set 100 (KStr "k") (PInt 7) (init 2 600) = Ok c1
    /\ get 200 (KStr "k") c1 = (PInt 7, c1)
    /\ fst (get 701 (KStr "k") c1) = PNone.
Proof.
  destruct (get_after_set (init 2 600) 100 (KStr "k") (PInt 7))
    as (c1 & Hset & _ & Hbefore & Hafter).
  - split; [constructor | unfold size; simpl; lia].
  - simpl. lia.
  - simpl. discriminate.
  - exists c1. split; [assumption |]. split.
    + apply Hbefore. simpl. reflexivity.
    + rewrite (proj1 (Hafter 701 eq_refl)). reflexivity.
Defined.
End TTLCacheFacts.

(** ** call_with_retry *)

Lemma is_transient_codes (code : option Z) :
  is_transient code = true
  <-> exists c, code = Some c /\ In c [429; 500; 502; 503; 504]%Z.
Proof.
  destruct code as [c |]; simpl.
  - rewrite !orb_true_iff, !Z.eqb_eq. split.
    + intros H. exists c. split; [reflexivity |].
      intuition congruence.
    + intros (c' & [= <-] & H). intuition congruence.
  - split; [discriminate | intros (c & H & _); discriminate].
Qed.

(** The status lookup of line 17 fails in one way only: nothing usable in
    [status_code], and a [resp] without a [status]. *)
Lemma extract_code_Raise (e : HttpErr) (x : exn) :
  extract_code e = Raise x
  <-> (status_code e = None \/ status_code e = Some 0%Z)
      /\ resp e = RespWithoutStatus
      /\ x = OtherError "AttributeError".
Proof.
  unfold extract_code, resp_status.
  destruct (status_code e) as [c |].
  - destruct (Z.eqb_spec c 0) as [-> | Hc].
    + destruct (resp e); split; try discriminate;
        try (intros (_ & H & _); discriminate).
      * intros [= <-]. auto.
      * intros (_ & _ & ->). reflexivity.
    + split; [discriminate |].
      intros ([H | H] & _); [discriminate | congruence].
  - destruct (resp e); split; try discriminate;
      try (intros (_ & H & _); discriminate).
    + intros [= <-]. auto.
    + intros (_ & _ & ->). reflexivity.
Qed.

Section RetryFacts.
Variable A : Type.
Variable Env : Type.
Variable request_exec : Env -> result A * Env.
Variable time_sleep : Q -> Env -> Env.
Variable random_uniform : Q -> Q -> nat -> Q.
Variable retries : Z.
Variable base cap : Q.

Local Abbreviation loop :=
  (retry_loop A Env request_exec time_sleep random_uniform
                    retries base cap).
Local Abbreviation call := (call_with_retry A Env request_exec time_sleep
                    random_uniform retries base cap).
Local Abbreviation delay n := (Qmin cap (base * inject_Z (2 ^ n))).
Local Abbreviation jitter := (random_uniform 0 (1 # 4)).
Local Abbreviation OverflowError := (OtherError "OverflowError").

Lemma pow2_nonneg (n : Z) : 0 <= inject_Z (2 ^ n).
Proof.
  change 0 with (inject_Z 0). rewrite <- Zle_Qle.
  apply Z.pow_nonneg. lia.
Qed.

Lemma backoff_Ok (n : Z) :
  (n < 1024)%Z -> backoff base cap n = Ok (delay n).
Proof.
  intros H. unfold backoff, scaled_base.
  apply Z.leb_gt in H. now rewrite H.
Qed.

Lemma backoff_overflow (n : Z) :
  (1024 <= n)%Z -> backoff base cap n = Raise OverflowError.
Proof.
  intros H. unfold backoff, scaled_base.
  apply Z.leb_le in H. now rewrite H.
Qed.

Lemma backoff_Ok_inv (n : Z) (d : Q) :
  backoff base cap n = Ok d -> (n < 1024)%Z /\ d = delay n.
Proof.
  destruct (Z.lt_ge_cases n 1024) as [H | H].
  - rewrite (backoff_Ok n H). intros [= <-]. auto.
  - rewrite (backoff_overflow n H). discriminate.
Qed.

Lemma backoff_Raise_inv (n : Z) (x : exn) :
  backoff base cap n = Raise x -> (1024 <= n)%Z /\ x = OverflowError.
Proof.
  destruct (Z.lt_ge_cases n 1024) as [H | H].
  - rewrite (backoff_Ok n H). discriminate.
  - rewrite (backoff_overflow n H). intros [= <-]. auto.
Qed.

Lemma backoff_le_cap (n : Z) : delay n <= cap.
Proof. apply Q.le_min_l. Qed.

Lemma backoff_nonneg (n : Z) : 0 <= base -> 0 <= cap -> 0 <= delay n.
Proof.
  intros Hb Hc. apply Q.min_glb; [assumption |].
  apply Qmult_le_0_compat; [assumption | apply pow2_nonneg].
Qed.

Lemma backoff_mono (n : Z) :
  0 <= base -> (0 <= n)%Z -> delay n <= delay (n + 1).
Proof.
  intros Hb Hn. apply Q.min_glb; [apply Q.le_min_l |].
  eapply Qle_trans; [apply Q.le_min_r |].
  rewrite Z.pow_add_r by lia. rewrite inject_Z_mult.
  pose proof (pow2_nonneg n) as Hp.
  change (inject_Z (2 ^ 1)) with 2.
  set (x := inject_Z (2 ^ n)) in *. nra.
Qed.

(** One iteration of the loop, by the outcome of the invocation. *)
Lemma loop_ok fuel attempt w v env1 :
  request_exec (renv w) = (Ok v, env1) ->
  loop (S fuel) attempt w
  = Some (Ok v, mkRun env1 (S (attempts w)) (slept w) (draws w)).
Proof. intros H. simpl. now rewrite H. Qed.

Lemma loop_propagate fuel attempt w x env1 :
  request_exec (renv w) = (Raise x, env1) ->
  (forall e, x = HttpError e ->
     exists code,
       extract_code e = Ok code
       /\ is_transient code && (attempt <? retries)%Z = false) ->
  loop (S fuel) attempt w
  = Some (Raise x, mkRun env1 (S (attempts w)) (slept w) (draws w)).
Proof.
  intros H Hx. simpl. rewrite H.
  destruct x as [| | e | name]; try reflexivity.
  destruct (Hx e eq_refl) as (code & -> & ->). reflexivity.
Qed.

Lemma loop_unreadable fuel attempt w e x env1 :
  request_exec (renv w) = (Raise (HttpError e), env1) ->
  extract_code e = Raise x ->
  loop (S fuel) attempt w
  = Some (Raise x, mkRun env1 (S (attempts w)) (slept w) (draws w)).
Proof. intros H Hx. simpl. now rewrite H, Hx. Qed.

Lemma loop_retry fuel attempt w e code env1 :
  request_exec (renv w) = (Raise (HttpError e), env1) ->
  extract_code e = Ok code ->
  is_transient code = true ->
  (attempt < retries)%Z ->
  (attempt < 1024)%Z ->
  0 <= delay attempt + jitter (draws w) ->
  loop (S fuel) attempt w
  = loop fuel (attempt + 1)%Z
      (mkRun (time_sleep (delay attempt + jitter (draws w)) env1)
         (S (attempts w))
         (slept w ++ [delay attempt + jitter (draws w)])
         (S (draws w))).
Proof.
  intros H Hc Ht Hlt Hlim Hs.
  cbn [retry_loop]. rewrite H, Hc, Ht. cbn [renv attempts slept draws].
  apply Z.ltb_lt in Hlt. rewrite Hlt. cbn [andb].
  rewrite (backoff_Ok attempt Hlim).
  apply Qltb_ge in Hs. now rewrite Hs.
Qed.

Lemma loop_overflow_step fuel attempt w e code env1 :
  request_exec (renv w) = (Raise (HttpError e), env1) ->
  extract_code e = Ok code ->
  is_transient code = true ->
  (attempt < retries)%Z ->
  (1024 <= attempt)%Z ->
  loop (S fuel) attempt w
  = Some (Raise OverflowError,
          mkRun env1 (S (attempts w)) (slept w) (draws w)).
Proof.
  intros H Hc Ht Hlt Hlim.
  cbn [retry_loop]. rewrite H, Hc, Ht. cbn [renv attempts slept draws].
  apply Z.ltb_lt in Hlt. rewrite Hlt. cbn [andb].
  now rewrite (backoff_overflow attempt Hlim).
Qed.

(** Walks through one iteration of the loop, leaving the case of a retry
    that goes on to sleep. *)
Ltac loop_cases stop :=
  cbn [retry_loop];
  match goal with
  | |- context [request_exec (renv ?w)] =>
      let o := fresh "o" in
      let env1 := fresh "env1" in
      let Hreq := fresh "Hreq" in
      destruct (request_exec (renv w)) as [o env1] eqn:Hreq;
      cbn [renv attempts slept draws];
      destruct o as [? | [| | ?e | ?]]; try solve [stop]
  end;
  match goal with
  | |- context [extract_code ?e] =>
      let Hcode := fresh "Hcode" in
      destruct (extract_code e) as [?code | ?] eqn:Hcode; [| solve [stop]]
  end;
  match goal with
  | |- context [is_transient ?c && ?b] =>
      let E := fresh "E" in
      destruct (is_transient c && b) eqn:E; [| solve [stop]];
      apply andb_true_iff in E; destruct E as [?Htr E];
      apply Z.ltb_lt in E
  end;
  match goal with
  | |- context [backoff base cap ?a] =>
      let Hd := fresh "Hd" in
      destruct (backoff base cap a) as [?d | ?] eqn:Hd; [| solve [stop]];
      apply backoff_Ok_inv in Hd; destruct Hd as [?Hlim ->]
  end;
  match goal with
  | |- context [Qltb ?s 0] =>
      let Hs := fresh "Hs" in
      destruct (Qltb s 0) eqn:Hs; [solve [stop] |]
  end.

(** The loop ends within [retries - attempt + 1] iterations, whatever the
    invocation does. *)
Lemma loop_total fuel attempt w :
  (Z.to_nat (retries - attempt) < fuel)%nat ->
  exists r w',
    loop fuel attempt w = Some (r, w')
    /\ (attempts w < attempts w'
        <= attempts w + Z.to_nat (retries - attempt) + 1)%nat.
Proof.
  revert attempt w. induction fuel as [| fuel IH]; intros attempt w Hf;
    [lia |].
  loop_cases ltac:(eexists _, _; split; [reflexivity | simpl; lia]).
  match goal with |- context [loop fuel ?a ?u] =>
    destruct (IH a u) as (r & w' & Hrun & Hb); [lia |] end.
  exists r, w'. split; [assumption |]. simpl in Hb. lia.
Qed.

(** More fuel does not change what the loop returns. *)
Lemma loop_more_fuel fuel fuel' attempt w o :
  loop fuel attempt w = Some o -> (fuel <= fuel')%nat ->
  loop fuel' attempt w = Some o.
Proof.
  revert fuel' attempt w.
  induction fuel as [| fuel IH]; intros fuel' attempt w; [discriminate |].
  destruct fuel' as [| fuel']; [lia |]. cbn [retry_loop].
  destruct (request_exec (renv w)) as [r env1].
  destruct r as [v | x]; [auto |].
  destruct x as [| | e | name]; auto.
  destruct (extract_code e) as [code | y]; [| auto].
  destruct (is_transient code && (attempt <? retries)%Z); [| auto].
  destruct (backoff base cap attempt) as [d | y]; [| auto].
  destruct (Qltb _ 0); [auto |].
  intros H Hle. apply IH; [assumption | lia].
Qed.

(** The sleeps of a run: the [i]-th one lasts [min(cap, base * 2 ** i)] plus
    the jitter drawn for it, and every completed sleep is followed by one
    more attempt. *)
Lemma loop_trace fuel attempt w r w' :
  loop fuel attempt w = Some (r, w') ->
  exists n : nat,
    slept w'
    = slept w
      ++ map (fun i => delay (attempt + Z.of_nat i) + jitter (draws w + i))
           (seq 0 n)
    /\ attempts w' = (attempts w + n + 1)%nat
    /\ (Z.of_nat n <= Z.max 0 (retries - attempt))%Z
    /\ (Z.of_nat n <= Z.max 0 (1024 - attempt))%Z.
Proof.
  revert attempt w. induction fuel as [| fuel IH]; intros attempt w;
    [discriminate |].
  loop_cases ltac:(intros [= _ <-]; exists 0%nat; simpl;
                   rewrite app_nil_r; repeat split; lia).
  intros Hrun. apply IH in Hrun. destruct Hrun as (n & Hsl & Ha & Hn & Hm).
  simpl in Hsl, Ha. exists (S n). split; [| repeat split; lia].
  rewrite Hsl, <- app_assoc. f_equal. cbn [seq map app].
  rewrite Z.add_0_r, Nat.add_0_r. f_equal.
  rewrite <- seq_shift, map_map. apply map_ext. intros i.
  do 5 f_equal; lia.
Qed.

(** The sleeps of a run, one by one. *)
Lemma trace_nth (f : nat -> Q) (l : list Q) (n i : nat) :
  (i < n)%nat ->
  nth_error (l ++ map f (seq 0 n)) (length l + i) = Some (f i).
Proof.
  intros Hi. rewrite nth_error_app2 by lia.
  replace (length l + i - length l)%nat with i by lia.
  rewrite nth_error_map, nth_error_seq.
  apply Nat.ltb_lt in Hi. now rewrite Hi.
Qed.

Section Durations.
(** The parameters are durations, and [random.uniform(0, 0.25)] does not go
    below its lower bound: no sleep is negative. *)
Hypothesis base_nonneg : 0 <= base.
Hypothesis cap_nonneg : 0 <= cap.
Hypothesis jitter_nonneg : forall k, 0 <= jitter k.

Lemma sleep_nonneg attempt k : 0 <= delay attempt + jitter k.
Proof.
  pose proof (backoff_nonneg attempt base_nonneg cap_nonneg).
  pose proof (jitter_nonneg k). lra.
Qed.

(** With a status that can be read off every [HttpError] and a budget the
    float arithmetic of the backoff can take, what the loop hands back is
    what its last invocation produced. *)
Lemma loop_last fuel attempt w r w' :
  (forall s e s', request_exec s = (Raise (HttpError e), s') ->
                  exists code, extract_code e = Ok code) ->
  (retries <= 1024)%Z ->
  loop fuel attempt w = Some (r, w') ->
  exists s, request_exec s = (r, renv w').
Proof.
  intros Hread Hlim.
  revert attempt w. induction fuel as [| fuel IH]; intros attempt w;
    [discriminate |].
  cbn [retry_loop].
  destruct (request_exec (renv w)) as [o env1] eqn:Hreq.
  destruct o as [v | x]; [intros [= <- <-]; eauto |].
  destruct x as [| | e | name]; try (intros [= <- <-]; eauto).
  destruct (Hread _ _ _ Hreq) as [code ->].
  destruct (is_transient code && (attempt <? retries)%Z) eqn:E;
    [| intros [= <- <-]; eauto].
  apply andb_true_iff in E. destruct E as [_ E]. apply Z.ltb_lt in E.
  rewrite backoff_Ok by lia.
  rewrite (proj2 (Qltb_ge _ _) (sleep_nonneg attempt (draws w))).
  apply IH.
Qed.

Lemma loop_exhaust fuel attempt w :
  (forall s, exists e s' code,
      request_exec s = (Raise (HttpError e), s')
      /\ extract_code e = Ok code
      /\ is_transient code = true) ->
  (attempt <= retries)%Z ->
  (retries <= 1024)%Z ->
  (Z.to_nat (retries - attempt) < fuel)%nat ->
  exists e w',
    loop fuel attempt w = Some (Raise (HttpError e), w')
    /\ attempts w' = (attempts w + Z.to_nat (retries - attempt) + 1)%nat
    /\ length (slept w')
       = (length (slept w) + Z.to_nat (retries - attempt))%nat.
Proof.
  intros Hall. revert attempt w.
  induction fuel as [| fuel IH]; intros attempt w Hle Hlim Hf; [lia |].
  destruct (Hall (renv w)) as (e & env1 & code & Hreq & Hc & Ht).
  destruct (Z.eq_dec attempt retries) as [-> | Hne].
  - rewrite (loop_propagate fuel retries w _ env1 Hreq).
    + eexists _, _. split; [reflexivity |].
      rewrite Z.sub_diag. simpl. split; lia.
    + intros e' [= <-]. exists code. split; [assumption |].
      rewrite Z.ltb_irrefl. apply andb_false_r.
  - rewrite (loop_retry fuel attempt w e code env1 Hreq Hc Ht);
      [| lia | lia | apply sleep_nonneg].
    match goal with |- context [loop fuel ?a ?u] =>
      destruct (IH a u) as (e' & w' & Hrun & Ha & Hs); [lia | lia | lia |]
    end.
    exists e', w'. split; [assumption |]. simpl in Ha, Hs.
    rewrite length_app in Hs. simpl in Hs. split; lia.
Qed.

(** With a budget beyond 1024 and nothing but transient failures the loop
    reaches attempt number 1024, and there [base * (2 ** attempt)] fails. *)
Lemma loop_overflow fuel attempt w :
  (forall s, exists e s' code,
      request_exec s = (Raise (HttpError e), s')
      /\ extract_code e = Ok code
      /\ is_transient code = true) ->
  (1025 <= retries)%Z ->
  (0 <= attempt <= 1024)%Z ->
  (Z.to_nat (1024 - attempt) < fuel)%nat ->
  exists w',
    loop fuel attempt w = Some (Raise OverflowError, w')
    /\ attempts w' = (attempts w + Z.to_nat (1024 - attempt) + 1)%nat
    /\ length (slept w')
       = (length (slept w) + Z.to_nat (1024 - attempt))%nat.
Proof.
  intros Hall Hr. revert attempt w.
  induction fuel as [| fuel IH]; intros attempt w Ha Hf; [lia |].
  destruct (Hall (renv w)) as (e & env1 & code & Hreq & Hc & Ht).
  destruct (Z.eq_dec attempt 1024) as [-> | Hne].
  - rewrite (loop_overflow_step fuel 1024 w e code env1 Hreq Hc Ht);
      [| lia | lia].
    eexists. split; [reflexivity |]. simpl. split; lia.
  - rewrite (loop_retry fuel attempt w e code env1 Hreq Hc Ht);
      [| lia | lia | apply sleep_nonneg].
    match goal with |- context [loop fuel ?a ?u] =>
      destruct (IH a u) as (w' & Hrun & Hat & Hs); [lia | lia |]
    end.
    exists w'. split; [assumption |]. cbn [attempts slept] in Hat, Hs.
    rewrite length_app in Hs. cbn [length] in Hs. split; lia.
Qed.
End Durations.

(** C5. The claim fails on an [HttpError] from which no status can be read:
    with nothing usable in [status_code] and a [resp] that has no [status]
    -- [resp] is [None] in googleapiclient's [BatchError] -- the lookup of
    line 17 raises [AttributeError] inside the handler. The call is still
    made once only, with no sleep, but the caller gets the
    [AttributeError] and never the failure of the call. *)
Theorem unreadable_status_raises_AttributeError w e env1 :
  request_exec (renv w) = (Raise (HttpError e), env1) ->
  status_code e = None \/ status_code e = Some 0%Z ->
  resp e = RespWithoutStatus ->
  call_with_retry A Env request_exec time_sleep random_uniform
    retries base cap w
  = Some (Raise (OtherError "AttributeError"),
          mkRun env1 (S (attempts w)) (slept w) (draws w))
  /\ (forall r u,
        call_with_retry A Env request_exec time_sleep random_uniform
          retries base cap w = Some (r, u) ->
        r <> Raise (HttpError e)).
Proof.
  intros Hreq Hsc Hresp.
  assert (Hx : extract_code e = Raise (OtherError "AttributeError")).
  { apply extract_code_Raise. auto. }
  assert (Hrun : call w
                 = Some (Raise (OtherError "AttributeError"),
                         mkRun env1 (S (attempts w)) (slept w) (draws w))).
  { unfold call_with_retry. now apply loop_unreadable with (e := e). }
  split; [exact Hrun |].
  intros r u. rewrite Hrun. intros [= <- _]. discriminate.
Qed.

(** X22. Where the status can be read the handler does what C5 says: a
    failure whose code is not one of 429, 500, 502, 503, 504 -- another
    code, no code at all, or no [HttpError] -- is handed to the caller by
    the iteration that met it, with no sleep and no further attempt: after
    exactly one attempt when it is the first outcome. Conversely a second
    attempt is only ever made after an [HttpError] whose code is in that
    set. *)
Theorem readable_failure_no_retry w x env1 :
  request_exec (renv w) = (Raise x, env1) ->
  (forall e, x = HttpError e ->
     exists code,
       extract_code e = Ok code
       /\ forall c, code = Some c -> ~ In c [429; 500; 502; 503; 504]%Z) ->
  call_with_retry A Env request_exec time_sleep random_uniform
    retries base cap w
  = Some (Raise x, mkRun env1 (S (attempts w)) (slept w) (draws w))
  /\ (forall fuel attempt,
        retry_loop A Env request_exec time_sleep random_uniform
          retries base cap (S fuel) attempt w
        = Some (Raise x, mkRun env1 (S (attempts w)) (slept w) (draws w)))
  /\ (forall fuel attempt u r u',
        retry_loop A Env request_exec time_sleep random_uniform
          retries base cap fuel attempt u = Some (r, u') ->
        (S (attempts u) < attempts u')%nat ->
        exists e env2 c,
          request_exec (renv u) = (Raise (HttpError e), env2)
          /\ extract_code e = Ok (Some c)
          /\ In c [429; 500; 502; 503; 504]%Z).
Proof.
  intros Hreq Hcode.
  assert (Hx : forall attempt e, x = HttpError e ->
             exists code,
               extract_code e = Ok code
               /\ is_transient code && (attempt <? retries)%Z = false).
  { intros attempt e He. destruct (Hcode e He) as (code & Hc & Hnot).
    exists code. split; [assumption |].
    destruct (is_transient code) eqn:E; [| reflexivity].
    apply is_transient_codes in E. destruct E as (c & -> & Hin).
    now destruct (Hnot c eq_refl). }
  split; [| split].
  - unfold call_with_retry. apply loop_propagate; auto.
  - intros fuel attempt. apply loop_propagate; auto.
  - intros [| fuel] attempt u r u'; [discriminate |].
    loop_cases ltac:(intros [= _ <-]; simpl; lia).
    intros _ _. apply is_transient_codes in Htr.
    destruct Htr as (c & -> & Hin).
    eexists _, _, c. auto.
Qed.

(** C7. Every call ends, and its sleeps come in order, the [n]-th one (from
    0) lasting [min(cap, base * 2^n)] plus the jitter drawn for it, each
    followed by one more attempt; with the jitter in [[0, 1/4)] each sleep
    lies within a quarter of a second above [min(cap, base * 2^n)], and with
    [base >= 0] that deterministic part never decreases from one retry to
    the next and never exceeds [cap]. *)
Theorem backoff_schedule w :
  (forall k, 0 <= random_uniform 0 (1 # 4) k < 1 # 4) ->
  0 <= base ->
  exists r w' (n : nat),
    call_with_retry A Env request_exec time_sleep random_uniform
      retries base cap w = Some (r, w')
    /\ slept w'
       = slept w
         ++ map (fun i => Qmin cap (base * inject_Z (2 ^ Z.of_nat i))
                          + random_uniform 0 (1 # 4) (draws w + i))
              (seq 0 n)
    /\ attempts w' = (attempts w + n + 1)%nat
    /\ (Z.of_nat n <= Z.max 0 retries)%Z
    /\ (forall i, (i < n)%nat ->
          exists d,
            nth_error (slept w') (length (slept w) + i) = Some d
            /\ Qmin cap (base * inject_Z (2 ^ Z.of_nat i)) <= d
            /\ d < Qmin cap (base * inject_Z (2 ^ Z.of_nat i)) + (1 # 4))
    /\ (forall i : nat,
          Qmin cap (base * inject_Z (2 ^ Z.of_nat i))
          <= Qmin cap (base * inject_Z (2 ^ (Z.of_nat i + 1)))
          /\ Qmin cap (base * inject_Z (2 ^ Z.of_nat i)) <= cap).
Proof.
  intros Hj Hb.
  destruct (loop_total (S (Z.to_nat retries)) 0 w) as (r & w' & Hrun & _).
  { rewrite Z.sub_0_r. lia. }
  exists r, w'. pose proof Hrun as Htr.
  apply loop_trace in Htr. destruct Htr as (n & Hs & Ha & Hn & _).
  rewrite Z.sub_0_r in Hn. cbn [Z.add] in Hs.
  exists n. split; [exact Hrun |]. split; [exact Hs |].
  split; [exact Ha |]. split; [exact Hn |]. split.
  - intros i Hi. eexists. split.
    + rewrite Hs. apply trace_nth. exact Hi.
    + cbv beta. destruct (Hj (draws w + i)%nat). split; lra.
  - intros i. split; [apply backoff_mono; [assumption | lia] |].
    apply backoff_le_cap.
Qed.

(** C6. The claim fails on a budget beyond 1024 retries: [base] is a float,
    and [base * (2 ** attempt)] raises [OverflowError] once [attempt]
    reaches 1024. With [retries >= 1025] and an invocation that fails with
    a transient status every time, the call is attempted 1025 times, with
    1024 sleeps in between, and then ends with that [OverflowError]: not
    after [retries + 1] attempts, and not with the failure of the call. *)
Theorem retries_beyond_1024_overflow w :
  (1025 <= retries)%Z ->
  0 <= base -> 0 <= cap -> (forall k, 0 <= random_uniform 0 (1 # 4) k) ->
  (forall s, exists e s' code,
      request_exec s = (Raise (HttpError e), s')
      /\ extract_code e = Ok code
      /\ is_transient code = true) ->
  exists w',
    call_with_retry A Env request_exec time_sleep random_uniform
      retries base cap w = Some (Raise (OtherError "OverflowError"), w')
    /\ attempts w' = (attempts w + 1025)%nat
    /\ length (slept w') = (length (slept w) + 1024)%nat
    /\ (Z.of_nat (attempts w') < Z.of_nat (attempts w) + retries + 1)%Z.
Proof.
  intros Hr Hb Hc Hj Hall.
  destruct (loop_overflow Hb Hc Hj (S (Z.to_nat retries)) 0 w Hall Hr)
    as (w' & Hrun & Ha & Hs); [lia | simpl; lia |].
  exists w'. split; [exact Hrun |].
  change (Z.to_nat (1024 - 0)) with 1024%nat in Ha, Hs. lia.
Qed.

(** X23. Within the budget the float arithmetic can take --
    [0 <= retries <= 1024] -- with durations that are not negative and a
    status that can be read off every [HttpError], [call_with_retry] does
    what C6 says: it always returns, after at most [retries + 1] attempts
    and whatever fuel beyond [retries] the loop is given, and hands back
    exactly what its last attempt produced; an attempt that succeeds ends
    the loop with its result; and when every attempt fails with a transient
    status the invocation is attempted exactly [retries + 1] times, with
    [retries] sleeps in between, before the last failure is raised. *)
Theorem bounded_budget_terminates w :
  (0 <= retries <= 1024)%Z ->
  0 <= base -> 0 <= cap -> (forall k, 0 <= random_uniform 0 (1 # 4) k) ->
  (forall s e s', request_exec s = (Raise (HttpError e), s') ->
                  exists code, extract_code e = Ok code) ->
  (exists r w' s,
      call_with_retry A Env request_exec time_sleep random_uniform
        retries base cap w = Some (r, w')
      /\ request_exec s = (r, renv w')
      /\ (Z.of_nat (attempts w) < Z.of_nat (attempts w')
          <= Z.of_nat (attempts w) + retries + 1)%Z
      /\ (forall fuel, (Z.to_nat retries < fuel)%nat ->
            retry_loop A Env request_exec time_sleep random_uniform
              retries base cap fuel 0%Z w = Some (r, w')))
  /\ (forall fuel attempt u v env1,
        request_exec (renv u) = (Ok v, env1) ->
        retry_loop A Env request_exec time_sleep random_uniform
          retries base cap (S fuel) attempt u
        = Some (Ok v, mkRun env1 (S (attempts u)) (slept u) (draws u)))
  /\ ((forall s, exists e s' code,
          request_exec s = (Raise (HttpError e), s')
          /\ extract_code e = Ok code
          /\ is_transient code = true) ->
      exists e w' s,
        call_with_retry A Env request_exec time_sleep random_uniform
          retries base cap w = Some (Raise (HttpError e), w')
        /\ request_exec s = (Raise (HttpError e), renv w')
        /\ (Z.of_nat (attempts w') = Z.of_nat (attempts w) + retries + 1)%Z
        /\ (Z.of_nat (length (slept w'))
            = Z.of_nat (length (slept w)) + retries)%Z).
Proof.
  intros [Hr Hlim] Hb Hc Hj Hread. split; [| split].
  - destruct (loop_total (S (Z.to_nat retries)) 0 w) as (r & w' & Hrun & Ha).
    { rewrite Z.sub_0_r. lia. }
    destruct (loop_last Hb Hc Hj _ _ _ _ _ Hread Hlim Hrun) as [s Hs].
    exists r, w', s. split; [exact Hrun |]. split; [exact Hs |].
    rewrite Z.sub_0_r in Ha. split; [lia |].
    intros fuel Hfuel. apply (loop_more_fuel _ _ _ _ _ Hrun). lia.
  - intros fuel attempt u v env1. apply loop_ok.
  - intros Hall.
    destruct (loop_exhaust Hb Hc Hj (S (Z.to_nat retries)) 0 w Hall)
      as (e & w' & Hrun & Ha & Hs); [lia | lia | rewrite Z.sub_0_r; lia |].
    destruct (loop_last Hb Hc Hj _ _ _ _ _ Hread Hlim Hrun) as [s Hlast].
    exists e, w', s. split; [exact Hrun |]. split; [exact Hlast |].
    rewrite Z.sub_0_r in Ha, Hs. lia.
Qed.
End RetryFacts.

Lemma unreadable_status_raises_AttributeError_witness :
  call_with_retry Z unit batch_error_request no_sleep fixed_jitter
    5 (1 # 2) 8 (mkRun tt 0 [] 0)
  = Some (Raise (OtherError "AttributeError"), mkRun tt 1 [] 0).
Proof.
  apply (unreadable_status_raises_AttributeError Z unit batch_error_request
           no_sleep fixed_jitter 5 (1 # 2) 8 (mkRun tt 0 [] 0)
           (mkHttpErr None RespWithoutStatus) tt).
  - reflexivity.
  - left. reflexivity.
  - reflexivity.
Defined.

Lemma readable_failure_no_retry_witness :
  call_with_retry Z unit (failing_request 404) no_sleep fixed_jitter
    5 (1 # 2) 8 (mkRun tt 0 [] 0)
  = Some (Raise (HttpError
                   (mkHttpErr (Some 404%Z) (RespStatus (Some 404%Z)))),
          mkRun tt 1 [] 0).
Proof.
  apply (readable_failure_no_retry Z unit (failing_request 404) no_sleep
           fixed_jitter 5 (1 # 2) 8 (mkRun tt 0 [] 0)
           (HttpError (mkHttpErr (Some 404%Z) (RespStatus (Some 404%Z))))
           tt).
  - reflexivity.
  - intros e [= <-]. exists (Some 404%Z). split; [reflexivity |].
    intros c [= <-]. simpl. lia.
Defined.

Lemma backoff_schedule_witness :
  exists r w',
    call_with_retry Z unit (failing_request 503) no_sleep fixed_jitter
      2 (1 # 2) 8 (mkRun tt 0 [] 0) = Some (r, w')
    /\ attempts w' = 3%nat
    /\ slept w'
       = [Qmin 8 ((1 # 2) * inject_Z (2 ^ 0)) + (1 # 8);
          Qmin 8 ((1 # 2) * inject_Z (2 ^ 1)) + (1 # 8)].
Proof.
  destruct (backoff_schedule Z unit (failing_request 503) no_sleep
              fixed_jitter 2 (1 # 2) 8 (mkRun tt 0 [] 0))
    as (r & w' & n & Hrun & _).
  - intros k. unfold fixed_jitter. split; lra.
  - lra.
  - exists r, w'. split; [exact Hrun |].
    vm_compute in Hrun. injection Hrun as _ <-. split; reflexivity.
Defined.

Lemma retries_beyond_1024_overflow_witness :
  exists w',
    call_with_retry Z unit (failing_request 503) no_sleep fixed_jitter
      1025 (1 # 2) 8 (mkRun tt 0 [] 0)
    = Some (Raise (OtherError "OverflowError"), w')
    /\ attempts w' = 1025%nat
    /\ length (slept w') = 1024%nat.
Proof.
  destruct (retries_beyond_1024_overflow Z unit (failing_request 503)
              no_sleep fixed_jitter 1025 (1 # 2) 8 (mkRun tt 0 [] 0))
    as (w' & Hrun & Ha & Hs & _).
  - lia.
  - lra.
  - lra.
  - intros k. unfold fixed_jitter. lra.
  - intros s. eexists _, _, _. repeat split; reflexivity.
  - exists w'. split; [exact Hrun |]. split; assumption.
Defined.

Lemma bounded_budget_terminates_witness :
  exists e w' s,
    call_with_retry Z unit (failing_request 503) no_sleep fixed_jitter
      2 (1 # 2) 8 (mkRun tt 0 [] 0) = Some (Raise (HttpError e), w')
    /\ failing_request 503 s = (Raise (HttpError e), renv w')
    /\ (Z.of_nat (attempts w') = Z.of_nat 0 + 2 + 1)%Z
    /\ (Z.of_nat (length (slept w')) = Z.of_nat 0 + 2)%Z.
Proof.
  apply (bounded_budget_terminates Z unit (failing_request 503) no_sleep
           fixed_jitter 2 (1 # 2) 8 (mkRun tt 0 [] 0)).
  - lia.
  - lra.
  - lra.
  - intros k. unfold fixed_jitter. lra.
  - intros s e s' [= <- _]. eexists. reflexivity.
  - intros s. eexists _, _, _. repeat split; reflexivity.
Defined.

(** ** ttl_memoize *)

Section MemoizeFacts.
Import TTLCache.
Variable Env : Type.
Variable time_time : Env -> Q.
Variable fn_module fn_name : string.
Variable fn : list PyVal -> list (string * PyVal) -> Env -> result PyVal * Env.

Local Abbreviation wrap := (wrapper Env time_time fn_module fn_name fn).
Local Abbreviation key_of := (make_key fn_module fn_name).

Lemma get_params now key c :
  maxsize (snd (get now key c)) = maxsize c
  /\ ttl (snd (get now key c)) = ttl c.
Proof.
  unfold get. destruct (dict_get key (_store c)) as [[e v] |]; [| auto].
  destruct (Qltb e now); auto.
Qed.

Lemma get_store_In now key c x :
  In x (_store (snd (get now key c))) -> In x (_store c).
Proof.
  unfold get. destruct (dict_get key (_store c)) as [[e v] |]; [| auto].
  destruct (Qltb e now); simpl; [apply dict_pop_In | auto].
Qed.

(** A live entry with a value other than [None] is a hit: the value comes
    back flagged as cached, and nothing changes. *)
Lemma wrapper_hit args kwargs key w e v :
  key_of args kwargs = Ok key ->
  dict_get key (_store (cache w)) = Some (e, v) ->
  time_time (env w) <= e ->
  v <> PNone ->
  wrap args kwargs w = (Ok (v, true), w).
Proof.
  intros Hkey Hget Hnow Hv. unfold wrapper, get. rewrite Hkey, Hget.
  apply Qltb_ge in Hnow. rewrite Hnow.
  destruct w as [s c n]. destruct v; simpl; congruence.
Qed.

(** A lookup that yields [None] lets the call through to [fn]. *)
Lemma wrapper_miss args kwargs key w :
  key_of args kwargs = Ok key ->
  fst (get (time_time (env w)) key (cache w)) = PNone ->
  let c1 := snd (get (time_time (env w)) key (cache w)) in
  forall o env1, fn args kwargs (env w) = (o, env1) ->
    match o with
    | Raise x => wrap args kwargs w = (Raise x, mkWorld env1 c1 (S (calls w)))
    | Ok value =>
        exists c2,
          set (time_time env1) key value c1 = Ok c2
          /\ wrap args kwargs w
             = (Ok (value, false), mkWorld env1 c2 (S (calls w)))
    end.
Proof.
  intros Hkey Hmiss c1 o env1 Hfn. unfold wrapper. rewrite Hkey.
  destruct (get (time_time (env w)) key (cache w)) as [hit c1'] eqn:Hg.
  simpl in Hmiss. subst hit. simpl. rewrite Hfn.
  destruct o as [value | x]; [| reflexivity].
  simpl in c1. subst c1.
  destruct (TTLCacheFacts.set_spec (time_time env1) key value c1')
    as (c2 & Hset & _).
  exists c2. split; [assumption |]. now rewrite Hset.
Qed.

(** Once a lookup has yielded [None], later lookups of the same key on the
    cache it leaves yield [None] as well. *)
Lemma get_miss_stays now now' key c :
  dict_wf (_store c) ->
  fst (get now key c) = PNone ->
  fst (get now' key (snd (get now key c))) = PNone.
Proof.
  intros Hwf. unfold get at 1 3.
  destruct (dict_get key (_store c)) as [[e v] |] eqn:E; simpl.
  - destruct (Qltb e now) eqn:Hexp; simpl.
    + intros _. unfold get. simpl. now rewrite dict_get_pop_eq.
    + intros ->. unfold get. rewrite E. now destruct (Qltb e now').
  - intros _. unfold get. now rewrite E.
Qed.

Lemma set_store_In now key value c c2 x :
  set now key value c = Ok c2 ->
  In x (_store c2) -> x = (key, (now + ttl c, value)) \/ In x (_store c).
Proof.
  intros Hset Hin.
  destruct (TTLCacheFacts.set_spec now key value c)
    as (c2' & Hset' & _ & _ & Hfit & Hevict).
  rewrite Hset in Hset'. injection Hset' as <-.
  apply dict_setitem_In.
  destruct (Z_le_gt_dec
              (Z.of_nat (length (dict_setitem key (now + ttl c, value)
                                   (_store c))))
              (maxsize c)) as [Hle | Hgt].
  - now rewrite <- (Hfit Hle).
  - destruct Hevict as (k0 & e0 & v0 & _ & _ & Hst & _); [lia |].
    rewrite Hst in Hin. now apply dict_pop_In in Hin.
Qed.

(** A miss whose call succeeds leaves the result in a cache that is in
    order: the new entry is not the one evicted. *)
Lemma wrapper_stores args kwargs key w r env1 :
  key_of args kwargs = Ok key ->
  fst (get (time_time (env w)) key (cache w)) = PNone ->
  fn args kwargs (env w) = (Ok r, env1) ->
  inv (cache w) ->
  (1 <= maxsize (cache w))%Z ->
  (forall k' e' v', dict_get k' (_store (cache w)) = Some (e', v') ->
                    e' <= time_time env1 + ttl (cache w)) ->
  exists c2,
    wrap args kwargs w = (Ok (r, false), mkWorld env1 c2 (S (calls w)))
    /\ dict_get key (_store c2) = Some (time_time env1 + ttl (cache w), r).
Proof.
  intros Hkey Hmiss Hfn Hinv Hmax Hold.
  pose proof (wrapper_miss args kwargs key w Hkey Hmiss _ _ Hfn) as Hw.
  cbv zeta in Hw. destruct Hw as (c2 & Hset & Hw).
  exists c2. split; [exact Hw |].
  set (c1 := snd (get (time_time (env w)) key (cache w))) in *.
  destruct (get_params (time_time (env w)) key (cache w)) as [Hm1 Ht1].
  fold c1 in Hm1, Ht1.
  destruct (TTLCacheFacts.set_entry_survives c1 (time_time env1) key r)
    as (c2' & Hset' & _ & Hk).
  { apply TTLCacheFacts.get_inv, Hinv. }
  { now rewrite Hm1. }
  { intros k' e' v' Hk'. rewrite Ht1. apply (Hold k' e' v').
    apply In_dict_get; [apply Hinv |].
    apply (get_store_In (time_time (env w)) key). now apply dict_get_In. }
  rewrite Hset in Hset'. injection Hset' as <-. rewrite Ht1 in Hk.
  exact Hk.
Qed.

(** C1 (amended). When the key of the call can be derived, the lookup finds
    no live value and [fn] returns [r], whatever [r] is, the call returns
    [(r, False)] after invoking [fn] once.  When moreover the cache is in
    order (its invariant, room for one entry at least, no entry expiring
    after the new one), [r] is left in the cache under that key, to expire
    one time-to-live after the time read when [fn] returned.  When on top of
    that [r] is not [None] and the time-to-live is not negative, a second
    call with the same arguments returns [(r, True)] and changes nothing:
    [fn] is not invoked.  And for [r] other than [None] the same holds of a
    call in any state where the entry is there and has not expired. *)
Theorem memoize_round_trip args kwargs key w r env1 :
  make_key fn_module fn_name args kwargs = Ok key ->
  fst (get (time_time (env w)) key (cache w)) = PNone ->
  fn args kwargs (env w) = (Ok r, env1) ->
  exists c2,
    let w1 := mkWorld env1 c2 (S (calls w)) in
    wrapper Env time_time fn_module fn_name fn args kwargs w
    = (Ok (r, false), w1)
    /\ (inv (cache w) ->
        (1 <= maxsize (cache w))%Z ->
        (forall k' e' v', dict_get k' (_store (cache w)) = Some (e', v') ->
                          e' <= time_time env1 + ttl (cache w)) ->
        dict_get key (_store c2) = Some (time_time env1 + ttl (cache w), r)
        /\ (r <> PNone ->
            0 <= ttl (cache w) ->
            wrapper Env time_time fn_module fn_name fn args kwargs w1
            = (Ok (r, true), w1)))
    /\ (r <> PNone ->
        forall w2 e,
          dict_get key (_store (cache w2)) = Some (e, r) ->
          time_time (env w2) <= e ->
          wrapper Env time_time fn_module fn_name fn args kwargs w2
          = (Ok (r, true), w2)).
Proof.
  intros Hkey Hmiss Hfn.
  pose proof (wrapper_miss args kwargs key w Hkey Hmiss _ _ Hfn) as Hw.
  cbv zeta in Hw. destruct Hw as (c2 & Hset & Hw).
  exists c2. cbv zeta. split; [exact Hw |]. split.
  - intros Hinv Hmax Hold.
    destruct (wrapper_stores args kwargs key w r env1
                Hkey Hmiss Hfn Hinv Hmax Hold) as (c2' & Hw' & Hk).
    rewrite Hw in Hw'. injection Hw' as <-.
    split; [exact Hk |]. intros Hr Httl.
    apply (wrapper_hit _ _ key _ (time_time env1 + ttl (cache w)) r);
      simpl; auto. lra.
  - intros Hr w2 e Hk2 Hnow. now apply (wrapper_hit _ _ key _ e r).
Qed.

(** C10. A result [None] is never served from the cache.  [get] answers
    [None] for a stored [None] as it does for a missing key; so when [fn]
    returns [None] for these arguments and the cache holds no other value
    under their key, each of any [n] calls in a row invokes [fn] and returns
    [(None, False)]. *)
Theorem none_result_never_cached args kwargs key n w :
  make_key fn_module fn_name args kwargs = Ok key ->
  (forall s, exists s', fn args kwargs s = (Ok PNone, s')) ->
  (forall e v, In (key, (e, v)) (_store (cache w)) -> v = PNone) ->
  (forall now, fst (get now key (cache w)) = PNone)
  /\ exists w',
      repeat_calls Env time_time fn_module fn_name fn n args kwargs w
      = (repeat (Ok (PNone, false)) n, w')
      /\ calls w' = (calls w + n)%nat.
Proof.
  intros Hkey Hfn.
  assert (Hlook : forall c now,
             (forall e v, In (key, (e, v)) (_store c) -> v = PNone) ->
             fst (get now key c) = PNone).
  { intros c now Hc. unfold get.
    destruct (dict_get key (_store c)) as [[e v] |] eqn:E; [| reflexivity].
    destruct (Qltb e now); [reflexivity |]. simpl.
    apply (Hc e). now apply dict_get_In. }
  intros Hstore. split; [intros now; now apply Hlook |].
  revert w Hstore. induction n as [| n IH]; intros w Hstore.
  - exists w. simpl. split; [reflexivity | lia].
  - destruct (Hfn (env w)) as [env1 Hcall].
    pose proof (wrapper_miss args kwargs key w Hkey (Hlook _ _ Hstore)
                  _ _ Hcall) as Hw.
    cbv zeta in Hw. destruct Hw as (c2 & Hset & Hw).
    destruct (IH (mkWorld env1 c2 (S (calls w)))) as (w' & Hrun & Hcalls).
    { simpl. intros e v Hin.
      destruct (set_store_In _ _ _ _ _ _ Hset Hin) as [[= _ <-] | Hin'];
        [reflexivity |].
      apply (Hstore e), (get_store_In (time_time (env w)) key), Hin'. }
    exists w'. cbn [repeat_calls repeat]. rewrite Hw, Hrun.
    split; [reflexivity |]. simpl in Hcalls. lia.
Qed.

(** C4 (amended). When the lookup finds no live value and [fn] raises, the
    call raises the same exception and writes nothing: the cache is left as
    the lookup left it, that is unchanged apart from an expired entry under
    the key of the call, which the lookup has removed; a following call with
    the same arguments misses again and invokes [fn] again. *)
Theorem failure_not_cached args kwargs key w x env1 :
  make_key fn_module fn_name args kwargs = Ok key ->
  dict_wf (_store (cache w)) ->
  fst (get (time_time (env w)) key (cache w)) = PNone ->
  fn args kwargs (env w) = (Raise x, env1) ->
  let c1 := snd (get (time_time (env w)) key (cache w)) in
  let w1 := mkWorld env1 c1 (S (calls w)) in
  wrapper Env time_time fn_module fn_name fn args kwargs w = (Raise x, w1)
  /\ (forall k, k <> key ->
        dict_get k (_store c1) = dict_get k (_store (cache w)))
  /\ (c1 = cache w
      \/ exists e v, dict_get key (_store (cache w)) = Some (e, v)
                     /\ e < time_time (env w)
                     /\ _store c1 = dict_pop key (_store (cache w)))
  /\ (forall w2, cache w2 = c1 ->
        calls (snd (wrapper Env time_time fn_module fn_name fn args kwargs w2))
        = S (calls w2)).
Proof.
  intros Hkey Hwf Hmiss Hfn c1 w1.
  pose proof (wrapper_miss args kwargs key w Hkey Hmiss _ _ Hfn) as Hw.
  cbv zeta in Hw. split; [exact Hw |]. split; [| split].
  - intros k Hk. unfold c1, get.
    destruct (dict_get key (_store (cache w))) as [[e v] |]; [| reflexivity].
    destruct (Qltb e (time_time (env w))); [| reflexivity].
    simpl. apply dict_get_pop_ne. congruence.
  - unfold c1, get.
    destruct (dict_get key (_store (cache w))) as [[e v] |]; [| now left].
    destruct (Qltb e (time_time (env w))) eqn:E; [| now left].
    right. exists e, v. apply Qltb_lt in E. auto.
  - intros w2 Hc2.
    assert (Hmiss2 : fst (get (time_time (env w2)) key (cache w2)) = PNone).
    { rewrite Hc2. unfold c1. now apply get_miss_stays. }
    destruct (fn args kwargs (env w2)) as [o env2] eqn:Hfn2.
    pose proof (wrapper_miss args kwargs key w2 Hkey Hmiss2 _ _ Hfn2) as Hw2.
    cbv zeta in Hw2. destruct o as [value | y].
    + destruct Hw2 as (c3 & _ & ->). reflexivity.
    + now rewrite Hw2.
Qed.
End MemoizeFacts.

Lemma memoize_round_trip_witness :
  exists c2,
    wrapper Q read_clock "m" "f" returns_42 [PStr "q"] []
      (mkWorld 0 (TTLCache.init 1024 600) 0)
    = (Ok (PInt 42, false), mkWorld 0 c2 1)
    /\ dict_get sample_key (TTLCache._store c2) = Some (0 + 600, PInt 42)
    /\ wrapper Q read_clock "m" "f" returns_42 [PStr "q"] [] (mkWorld 0 c2 1)
       = (Ok (PInt 42, true), mkWorld 0 c2 1).
Proof.
  destruct (memoize_round_trip Q read_clock "m" "f" returns_42
              [PStr "q"] [] sample_key
              (mkWorld 0 (TTLCache.init 1024 600) 0) (PInt 42) 0)
    as (c2 & Hfirst & Hstored & _).
  - reflexivity.
  - reflexivity.
  - reflexivity.
  - destruct Hstored as [Hentry Hsecond].
    + split; [constructor | unfold TTLCache.size; simpl; lia].
    + simpl. lia.
    + simpl. discriminate.
    + exists c2. split; [exact Hfirst |]. split; [exact Hentry |].
      apply Hsecond; [discriminate | simpl; lra].
Defined.

(** The round trip as C1 states it fails for a function that returns
    [None]: the second call invokes it again and reports a miss. *)
Lemma round_trip_fails_for_None :
  exists w1 w2,
    wrapper Q read_clock "m" "f" returns_none [PStr "q"] []
      (mkWorld 0 (TTLCache.init 1024 600) 0)
    = (Ok (PNone, false), w1)
    /\ wrapper Q read_clock "m" "f" returns_none [PStr "q"] [] w1
       = (Ok (PNone, false), w2)
    /\ calls w2 = 2%nat
    /\ wrapper Q read_clock "m" "f" returns_none [PStr "q"] [] w1
       <> (Ok (PNone, true), w1).
Proof.
  eexists _, _. split; [reflexivity |]. split; [reflexivity |].
  split; [reflexivity |]. intros H. vm_compute in H. discriminate.
Qed.

Lemma none_result_never_cached_witness :
  exists w',
    repeat_calls Q read_clock "m" "f" returns_none 3 [PStr "q"] []
      (mkWorld 0 (TTLCache.init 1024 600) 0)
    = ([Ok (PNone, false); Ok (PNone, false); Ok (PNone, false)], w')
    /\ calls w' = 3%nat.
Proof.
  apply (none_result_never_cached Q read_clock "m" "f" returns_none
           [PStr "q"] [] sample_key 3
           (mkWorld 0 (TTLCache.init 1024 600) 0)).
  - reflexivity.
  - intros s. exists s. reflexivity.
  - simpl. tauto.
Defined.

(** The cache is not always left unchanged by a failing call, as C4 has it:
    an expired entry under the key of the call is gone afterwards. *)
Lemma failing_call_drops_expired_entry :
  let c0 := TTLCache.mk 1024 600 [(sample_key, (5, PInt 1))] in
  exists w1,
    wrapper Q read_clock "m" "f" always_raises [PStr "q"] []
      (mkWorld 10 c0 0)
    = (Raise (OtherError "boom"), w1)
    /\ TTLCache._store (cache w1) = []
    /\ cache w1 <> c0.
Proof.
  eexists. split; [reflexivity |]. split; [reflexivity |]. discriminate.
Qed.

Lemma failure_not_cached_witness :
  wrapper Q read_clock "m" "f" always_raises [PStr "q"] []
    (mkWorld 10 (TTLCache.mk 1024 600 [(sample_key, (5, PInt 1))]) 0)
  = (Raise (OtherError "boom"), mkWorld 10 (TTLCache.mk 1024 600 []) 1).
Proof.
  pose proof (failure_not_cached Q read_clock "m" "f" always_raises
                [PStr "q"] [] sample_key
                (mkWorld 10 (TTLCache.mk 1024 600 [(sample_key, (5, PInt 1))])
                   0)
                (OtherError "boom") 10) as H.
  cbv zeta in H. apply H.
  - reflexivity.
  - simpl. constructor; [intros [] | constructor].
  - reflexivity.
  - reflexivity.
Defined.

(** ** Order on hashable values *)

Lemma ascii_compare_refl (a : ascii) : Ascii.compare a a = Eq.
Proof. apply N.compare_refl. Qed.

Lemma ascii_compare_trans (a b c : ascii) :
  Ascii.compare a b = Lt -> Ascii.compare b c = Lt -> Ascii.compare a c = Lt.
Proof.
  unfold Ascii.compare. rewrite !N.compare_lt_iff. apply N.lt_trans.
Qed.

Lemma string_compare_trans (a b c : string) :
  String.compare a b = Lt -> String.compare b c = Lt ->
  String.compare a c = Lt.
Proof.
  revert b c. induction a as [| x a IH]; intros [| y b] [| z c]; simpl;
    try discriminate; try reflexivity.
  destruct (Ascii.compare x y) eqn:Exy; try discriminate;
    destruct (Ascii.compare y z) eqn:Eyz; try discriminate; intros Hab Hbc.
  - apply Ascii.compare_eq_iff in Exy, Eyz. subst.
    rewrite ascii_compare_refl. eauto.
  - apply Ascii.compare_eq_iff in Exy. subst. now rewrite Eyz.
  - apply Ascii.compare_eq_iff in Eyz. subst. now rewrite Exy.
  - now rewrite (ascii_compare_trans _ _ _ Exy Eyz).
Qed.

Lemma string_ltb_asym (a b : string) :
  String.ltb a b = true -> String.ltb b a = false.
Proof.
  unfold String.ltb. rewrite (String.compare_antisym b a).
  now destruct (String.compare a b).
Qed.

Lemma string_ltb_total (a b : string) :
  String.ltb a b = false -> a <> b -> String.ltb b a = true.
Proof.
  unfold String.ltb. rewrite (String.compare_antisym b a).
  destruct (String.compare a b) eqn:E; simpl; try congruence.
  apply String.compare_eq_iff in E. congruence.
Qed.

Lemma string_ltb_trans (a b c : string) :
  String.ltb a b = true -> String.ltb b c = true -> String.ltb a c = true.
Proof.
  unfold String.ltb.
  destruct (String.compare a b) eqn:Eab; try discriminate.
  destruct (String.compare b c) eqn:Ebc; try discriminate.
  now rewrite (string_compare_trans _ _ _ Eab Ebc).
Qed.

(** A comparison only ever raises [TypeError], and it raises both ways
    round or not at all. *)
Lemma key_lt_raise (x y : Key) e :
  key_lt x y = Raise e -> e = TypeError /\ key_lt y x = Raise TypeError.
Proof.
  revert y. induction x as [| a | a | xs IH] using Key_nested_ind;
    intros [| b | b | ys]; simpl; try discriminate;
    try (intros [= <-]; auto).
  revert ys. induction IH as [| x xs Hx _ IHxs]; intros [| y ys];
    try discriminate.
  rewrite (key_eqb_sym y x). destruct (key_eqb x y); [apply IHxs | apply Hx].
Qed.

Lemma key_lt_asym (x y : Key) :
  key_lt x y = Ok true -> key_lt y x = Ok false.
Proof.
  revert y. induction x as [| a | a | xs IH] using Key_nested_ind;
    intros [| b | b | ys]; simpl; try discriminate.
  - intros [= H]. f_equal. apply Z.ltb_lt in H. apply Z.ltb_ge. lia.
  - intros [= H]. f_equal. now apply string_ltb_asym.
  - revert ys. induction IH as [| x xs Hx _ IHxs]; intros [| y ys];
      try discriminate; try reflexivity.
    rewrite (key_eqb_sym y x). destruct (key_eqb x y); [apply IHxs | apply Hx].
Qed.

Lemma key_lt_total (x y : Key) :
  key_lt x y = Ok false -> x <> y -> key_lt y x = Ok true.
Proof.
  revert y. induction x as [| a | a | xs IH] using Key_nested_ind;
    intros [| b | b | ys]; simpl; try discriminate.
  - intros [= H] Hne. f_equal. apply Z.ltb_ge in H. apply Z.ltb_lt.
    assert (a <> b) by congruence. lia.
  - intros [= H] Hne. f_equal. apply string_ltb_total; congruence.
  - revert ys. induction IH as [| x xs Hx _ IHxs]; intros [| y ys];
      try discriminate; try reflexivity; try congruence.
    rewrite (key_eqb_sym y x). destruct (key_eqb x y) eqn:E.
    + apply key_eqb_eq in E. subst. intros H Hne.
      apply IHxs; [assumption | congruence].
    + apply key_eqb_neq in E. intros H _. now apply Hx.
Qed.

Lemma key_lt_irrefl (x : Key) : key_lt x x <> Ok true.
Proof.
  intros H. pose proof (key_lt_asym _ _ H). congruence.
Qed.

Lemma key_lt_trans (x y z : Key) :
  key_lt x y = Ok true -> key_lt y z = Ok true -> key_lt x z = Ok true.
Proof.
  revert y z. induction x as [| a | a | xs IH] using Key_nested_ind;
    intros [| b | b | ys] [| c | c | zs]; simpl; try discriminate.
  - intros [= H1] [= H2]. f_equal.
    apply Z.ltb_lt in H1, H2. apply Z.ltb_lt. lia.
  - intros [= H1] [= H2]. f_equal. eapply string_ltb_trans; eauto.
  - revert ys zs.
    induction IH as [| x xs Hx _ IHxs]; intros [| y ys] [| z zs];
      try discriminate; try reflexivity.
    destruct (key_eqb x y) eqn:Exy; destruct (key_eqb y z) eqn:Eyz.
    + apply key_eqb_eq in Exy, Eyz. subst. rewrite key_eqb_refl.
      apply IHxs.
    + apply key_eqb_eq in Exy. subst. rewrite Eyz. auto.
    + apply key_eqb_eq in Eyz. subst. rewrite Exy. auto.
    + intros H1 H2. destruct (key_eqb x z) eqn:Exz.
      * apply key_eqb_eq in Exz. subst.
        pose proof (key_lt_asym _ _ H1). congruence.
      * eapply Hx; eauto.
Qed.

(** ** Sorting *)

Lemma bind_Ok {X Y} (r : result X) (k : X -> result Y) y :
  bind r k = Ok y <-> exists x, r = Ok x /\ k x = Ok y.
Proof.
  destruct r as [x | e]; simpl.
  - split; [eauto | intros (x' & [= <-] & H); exact H].
  - split; [discriminate | intros (x' & H & _); discriminate].
Qed.

Lemma bind_Raise {X Y} (r : result X) (k : X -> result Y) e :
  bind r k = Raise e <-> r = Raise e \/ exists x, r = Ok x /\ k x = Raise e.
Proof.
  destruct r as [x | e']; simpl.
  - split; [eauto | intros [H | (x' & [= <-] & H)]; [discriminate | exact H]].
  - split; [intros [= ->]; auto |].
    intros [[= ->] | (x' & H & _)]; [reflexivity | discriminate].
Qed.

Lemma sorted_pairs (s : list Key) x y :
  StronglySorted key_less s -> In x s -> In y s ->
  x = y \/ key_less x y \/ key_less y x.
Proof.
  induction 1 as [| a s Hs IH Ha]; simpl; [tauto |].
  rewrite Forall_forall in Ha.
  intros [-> | Hx] [-> | Hy]; auto.
Qed.

Lemma sorted_unique (s1 s2 : list Key) :
  StronglySorted key_less s1 -> StronglySorted key_less s2 ->
  Permutation s1 s2 -> s1 = s2.
Proof.
  intros H1. revert s2. induction H1 as [| a s1 Hs1 IH Ha]; intros s2 H2 Hp.
  - apply Permutation_nil in Hp. now subst.
  - destruct H2 as [| b s2 Hs2 Hb].
    + apply Permutation_sym, Permutation_nil in Hp. discriminate.
    + rewrite Forall_forall in Ha, Hb.
      assert (a = b) as <-.
      { assert (Hina : In a (b :: s2))
          by (eapply Permutation_in; [exact Hp | now left]).
        assert (Hinb : In b (a :: s1))
          by (eapply Permutation_in;
              [apply Permutation_sym; exact Hp | now left]).
        destruct Hina as [-> | Hina]; [reflexivity |].
        destruct Hinb as [-> | Hinb]; [reflexivity |].
        pose proof (key_lt_asym _ _ (Ha _ Hinb)) as Hc.
        rewrite (Hb _ Hina) in Hc. discriminate. }
      f_equal. apply IH; [assumption |].
      eapply Permutation_cons_inv. exact Hp.
Qed.

(** Inserting into a sorted sequence that does not hold [x] yet. *)
Lemma insort_Ok (x : Key) (s s' : list Key) :
  StronglySorted key_less s -> ~ In x s ->
  insort x s = Ok s' ->
  Permutation (x :: s) s' /\ StronglySorted key_less s'
  /\ forall y, In y s -> key_less x y \/ key_less y x.
Proof.
  intros Hs. revert s'. induction Hs as [| y s Hs IH Hy]; intros s' Hx; simpl.
  - intros [= <-]. split; [reflexivity |].
    split; [repeat constructor | tauto].
  - destruct (key_lt y x) as [[|] | e] eqn:E; simpl; [| | discriminate].
    + intros H. apply bind_Ok in H. destruct H as (r & Hr & [= <-]).
      destruct (IH r) as (Hp & Hsr & Hcmp); [simpl in Hx; tauto | assumption |].
      split; [| split].
      * rewrite perm_swap. now constructor.
      * constructor; [assumption |].
        rewrite Forall_forall in *. intros z Hz.
        apply (Permutation_in _ (Permutation_sym Hp)) in Hz.
        destruct Hz as [<- | Hz]; [exact E | auto].
      * intros z [<- | Hz]; [now right | auto].
    + intros [= <-].
      assert (Hxy : key_less x y).
      { apply key_lt_total; [assumption |]. simpl in Hx. intuition. }
      assert (Hall : forall z, In z (y :: s) -> key_less x z).
      { rewrite Forall_forall in Hy. intros z [<- | Hz]; [assumption |].
        eapply key_lt_trans; eauto. apply Hy, Hz. }
      split; [reflexivity |]. split; [| auto].
      constructor; [now constructor |]. now apply Forall_forall.
Qed.

Lemma insort_Raise (x : Key) (s : list Key) e :
  insort x s = Raise e ->
  e = TypeError /\ exists y, In y s /\ key_lt y x = Raise TypeError.
Proof.
  induction s as [| y s IH]; simpl; [discriminate |].
  destruct (key_lt y x) as [[|] | e'] eqn:E; simpl.
  - intros H. apply bind_Raise in H.
    destruct H as [H | (r & _ & H)]; [| discriminate].
    destruct (IH H) as (-> & z & Hz & Hcmp). eauto.
  - discriminate.
  - intros [= ->]. destruct (key_lt_raise _ _ _ E) as [-> H].
    split; [reflexivity |]. exists y. split; [now left |].
    now apply key_lt_raise in H.
Qed.

Lemma sorted_Ok (l s : list Key) :
  NoDup l -> sorted l = Ok s ->
  Permutation l s /\ StronglySorted key_less s.
Proof.
  intros Hnd. revert s. induction Hnd as [| x l Hx Hnd IH]; intros s; simpl.
  - intros [= <-]. split; constructor.
  - intros H. apply bind_Ok in H. destruct H as (r & Hr & Hins).
    destruct (IH r Hr) as [Hp Hs].
    destruct (insort_Ok x r s Hs) as (Hp' & Hs' & _); [| assumption |].
    + intros Hin. apply Hx. eapply Permutation_in; [| exact Hin].
      now apply Permutation_sym.
    + split; [| assumption]. rewrite <- Hp'. now constructor.
Qed.

Lemma sorted_Raise (l : list Key) e :
  NoDup l -> sorted l = Raise e ->
  e = TypeError
  /\ exists x y, In x l /\ In y l /\ x <> y /\ key_lt x y = Raise TypeError.
Proof.
  intros Hnd. induction Hnd as [| x l Hx Hnd IH]; simpl; [discriminate |].
  intros H. apply bind_Raise in H. destruct H as [H | (r & Hr & H)].
  - destruct (IH H) as (-> & a & b & Ha & Hb & Hne & Hcmp).
    split; [reflexivity |]. exists a, b. auto.
  - destruct (insort_Raise _ _ _ H) as (-> & y & Hy & Hcmp).
    destruct (sorted_Ok l r Hnd Hr) as [Hp _].
    apply (Permutation_in _ (Permutation_sym Hp)) in Hy.
    split; [reflexivity |]. exists y, x.
    split; [now right |]. split; [now left |].
    split; [congruence | assumption].
Qed.

(** [sorted] does not depend on the order of its input, when no element
    occurs twice: both orders raise [TypeError], or both give the same
    sequence. *)
Lemma sorted_Permutation (l1 l2 : list Key) :
  Permutation l1 l2 -> NoDup l1 -> sorted l1 = sorted l2.
Proof.
  assert (Hhalf : forall la lb s e,
             Permutation la lb -> NoDup la ->
             sorted la = Ok s -> sorted lb = Raise e -> False).
  { clear l1 l2. intros l1 l2 s e Hp Hnd H1 H2.
    pose proof (Permutation_NoDup Hp Hnd) as Hnd2.
    destruct (sorted_Ok _ _ Hnd H1) as [Hps Hs].
    destruct (sorted_Raise _ _ Hnd2 H2) as (_ & x & y & Hx & Hy & Hne & Hcmp).
    assert (Hxs : In x s)
      by (eapply Permutation_in; [exact Hps |];
          eapply Permutation_in; [apply Permutation_sym; exact Hp | exact Hx]).
    assert (Hys : In y s)
      by (eapply Permutation_in; [exact Hps |];
          eapply Permutation_in; [apply Permutation_sym; exact Hp | exact Hy]).
    destruct (sorted_pairs s x y Hs Hxs Hys) as [? | [H | H]];
      [contradiction | unfold key_less in H; congruence |].
    apply key_lt_asym in H. congruence. }
  intros Hp Hnd. pose proof (Permutation_NoDup Hp Hnd) as Hnd2.
  destruct (sorted l1) as [s1 | e1] eqn:E1;
    destruct (sorted l2) as [s2 | e2] eqn:E2.
  - f_equal.
    destruct (sorted_Ok _ _ Hnd E1) as [Hp1 Hs1].
    destruct (sorted_Ok _ _ Hnd2 E2) as [Hp2 Hs2].
    apply sorted_unique; try assumption.
    now rewrite <- Hp1, <- Hp2.
  - destruct (Hhalf l1 l2 s1 e2 Hp Hnd E1 E2).
  - destruct (Hhalf l2 l1 s2 e1 (Permutation_sym Hp) Hnd2 E2 E1).
  - destruct (sorted_Raise _ _ Hnd E1) as [-> _].
    destruct (sorted_Raise _ _ Hnd2 E2) as [-> _]. reflexivity.
Qed.

(** ** Freezing *)

Lemma freeze_key_id (k : Key) : freeze_key k = k.
Proof.
  induction k as [| a | a | ks IH] using Key_nested_ind; simpl; try reflexivity.
  f_equal. induction IH as [| x xs Hx _ IHxs]; simpl; [reflexivity |].
  now rewrite Hx, IHxs.
Qed.

Lemma freeze_set (ks : list Key) : _freeze (PSet ks) = Ok (KTuple ks).
Proof.
  simpl. do 2 f_equal. induction ks as [| k ks IH]; simpl; [reflexivity |].
  now rewrite freeze_key_id, IH.
Qed.

Lemma freeze_dict (items : list (Key * PyVal)) :
  _freeze (PDict items)
  = (pairs <- mapM freeze_item items ;; s <- sorted pairs ;; Ok (KTuple s)).
Proof. reflexivity. Qed.

Lemma sorted_Raise_TypeError (l : list Key) e :
  sorted l = Raise e -> e = TypeError.
Proof.
  induction l as [| x l IH]; simpl; [discriminate |].
  intros H. apply bind_Raise in H. destruct H as [H | (r & _ & H)]; [auto |].
  now apply insort_Raise in H.
Qed.

Lemma mapM_Raise {X Y} (f : X -> result Y) (l : list X) e :
  mapM f l = Raise e -> exists x, In x l /\ f x = Raise e.
Proof.
  induction l as [| x l IH]; simpl; [discriminate |].
  intros H. apply bind_Raise in H. destruct H as [H | (y & _ & H)].
  - exists x. auto.
  - apply bind_Raise in H. destruct H as [H | (r & _ & H)]; [| discriminate].
    destruct (IH H) as (z & Hz & Hfz). eauto.
Qed.

Lemma mapM_Ok {X Y} (f : X -> result Y) (l : list X) r :
  mapM f l = Ok r -> Forall2 (fun x y => f x = Ok y) l r.
Proof.
  revert r. induction l as [| x l IH]; simpl; intros r.
  - intros [= <-]. constructor.
  - intros H. apply bind_Ok in H. destruct H as (y & Hy & H).
    apply bind_Ok in H. destruct H as (r' & Hr' & [= <-]).
    constructor; auto.
Qed.

(** The only exception [_freeze] raises is the [TypeError] of a
    comparison in [sorted]. *)
Lemma freeze_Raise (v : PyVal) e : _freeze v = Raise e -> e = TypeError.
Proof.
  induction v as [| z | s | xs IH | xs IH | ks | items IH]
    using PyVal_nested_ind; simpl; try discriminate.
  - intros H. apply bind_Raise in H.
    destruct H as [H | (r & _ & H)]; [| discriminate].
    apply mapM_Raise in H. destruct H as (x & Hx & Hfx).
    rewrite Forall_forall in IH. eauto.
  - intros H. apply bind_Raise in H.
    destruct H as [H | (r & _ & H)]; [| discriminate].
    apply mapM_Raise in H. destruct H as (x & Hx & Hfx).
    rewrite Forall_forall in IH. eauto.
  - intros H. apply bind_Raise in H. destruct H as [H | (r & _ & H)].
    + apply mapM_Raise in H. destruct H as (x & Hx & Hfx).
      apply bind_Raise in Hfx.
      destruct Hfx as [Hfx | (fv & _ & Hfx)]; [| discriminate].
      rewrite Forall_forall in IH. eauto.
    + apply bind_Raise in H. destruct H as [H | (s & _ & H)]; [| discriminate].
      now apply sorted_Raise_TypeError in H.
Qed.

Lemma freeze_item_Raise (kv : Key * PyVal) e :
  freeze_item kv = Raise e -> e = TypeError.
Proof.
  unfold freeze_item. intros H. apply bind_Raise in H.
  destruct H as [H | (fv & _ & H)]; [| discriminate].
  now apply freeze_Raise in H.
Qed.

Lemma mapM_freeze_item_Permutation (d1 d2 : list (Key * PyVal)) :
  Permutation d1 d2 ->
  same_up_to_order (mapM freeze_item d1) (mapM freeze_item d2).
Proof.
  induction 1 as [| x l l' Hp IH | x y l | l l' l'' Hp1 IH1 Hp2 IH2].
  - simpl. constructor.
  - simpl. destruct (freeze_item x) as [p | e]; simpl; [| reflexivity].
    destruct (mapM freeze_item l), (mapM freeze_item l'); simpl in *;
      auto.
  - simpl.
    destruct (freeze_item x) as [p | e] eqn:Ex;
      destruct (freeze_item y) as [q | e'] eqn:Ey; simpl;
      try reflexivity.
    + destruct (mapM freeze_item l); simpl; [apply perm_swap | reflexivity].
    + apply freeze_item_Raise in Ex, Ey. congruence.
  - destruct (mapM freeze_item l), (mapM freeze_item l'),
      (mapM freeze_item l''); simpl in *; try tauto; try congruence.
    eapply Permutation_trans; eauto.
Qed.

Lemma freeze_items_spec (d : list (Key * PyVal)) (pairs : list Key) :
  mapM freeze_item d = Ok pairs ->
  Forall2 (fun kv p => exists fv, _freeze (snd kv) = Ok fv
                                  /\ p = KTuple [fst kv; fv]) d pairs.
Proof.
  intros H. apply mapM_Ok in H.
  induction H as [| kv p d pairs Hp _ IH]; constructor; [| assumption].
  unfold freeze_item in Hp. apply bind_Ok in Hp.
  destruct Hp as (fv & Hfv & [= <-]). eauto.
Qed.

Lemma freeze_items_key (d : list (Key * PyVal)) (pairs : list Key) k fv :
  mapM freeze_item d = Ok pairs ->
  In (KTuple [k; fv]) pairs ->
  exists v, In (k, v) d /\ _freeze v = Ok fv.
Proof.
  intros H. apply freeze_items_spec in H.
  induction H as [| [k' v'] p d pairs (fv' & Hfv & ->) _ IH]; simpl;
    [tauto |].
  intros [[= <- <-] | Hin].
  - exists v'. auto.
  - destruct (IH Hin) as (v & Hv & Hf). eauto.
Qed.

Lemma freeze_items_NoDup (d : list (Key * PyVal)) (pairs : list Key) :
  dict_wf d -> mapM freeze_item d = Ok pairs -> NoDup pairs.
Proof.
  unfold dict_wf. revert pairs.
  induction d as [| [k v] d IH]; simpl; intros pairs Hwf.
  - intros [= <-]. constructor.
  - intros H. apply bind_Ok in H. destruct H as (p & Hp & H).
    apply bind_Ok in H. destruct H as (rest & Hrest & [= <-]).
    unfold freeze_item in Hp. apply bind_Ok in Hp.
    destruct Hp as (fv & _ & [= <-]). simpl in *.
    inversion Hwf as [| ? ? Hnotin Hwf']; subst.
    constructor; [| auto].
    intros Hin. destruct (freeze_items_key _ _ _ _ Hrest Hin) as (v0 & Hv0 & _).
    apply Hnotin. change k with (fst (k, v0)). now apply in_map.
Qed.

Lemma pair_less_by_key (k1 f1 k2 f2 : Key) :
  k1 <> k2 ->
  key_less (KTuple [k1; f1]) (KTuple [k2; f2]) <-> key_less k1 k2.
Proof.
  intros Hne. apply key_eqb_neq in Hne. unfold key_less. simpl.
  now rewrite Hne.
Qed.

Lemma freeze_items_In (d : list (Key * PyVal)) (pairs : list Key) p :
  mapM freeze_item d = Ok pairs ->
  In p pairs
  <-> exists k v fv, In (k, v) d /\ _freeze v = Ok fv /\ p = KTuple [k; fv].
Proof.
  intros H. apply freeze_items_spec in H.
  induction H as [| [k' v'] q d pairs (fv' & Hfv & ->) _ IH]; simpl.
  - split; [tauto | intros (k & v & fv & [] & _)].
  - rewrite IH. simpl in Hfv. split.
    + intros [<- | (k & v & fv & Hin & Hf & ->)].
      * exists k', v', fv'. auto.
      * exists k, v, fv. auto.
    + intros (k & v & fv & [[= -> ->] | Hin] & Hf & ->).
      * left. congruence.
      * right. exists k, v, fv. auto.
Qed.

Lemma distinct_NoDup (ks : list Key) : distinct ks = true <-> NoDup ks.
Proof.
  induction ks as [| k ks IH]; simpl.
  - split; [constructor | reflexivity].
  - rewrite andb_true_iff, negb_true_iff, IH. split.
    + intros [Hk Hnd]. constructor; [| assumption].
      intros Hin. assert (existsb (key_eqb k) ks = true); [| congruence].
      apply existsb_exists. exists k. split; [assumption | apply key_eqb_refl].
    + intros H. inversion H as [| ? ? Hnotin Hnd]; subst.
      split; [| assumption].
      destruct (existsb (key_eqb k) ks) eqn:E; [| reflexivity].
      apply existsb_exists in E. destruct E as (x & Hx & Heq).
      apply key_eqb_eq in Heq. subst. contradiction.
Qed.

Lemma all_comparable_spec (ks : list Key) :
  all_comparable ks = true
  <-> forall a b, In a ks -> In b ks -> a <> b -> exists r, key_lt a b = Ok r.
Proof.
  unfold all_comparable. rewrite forallb_forall. split.
  - intros H a b Ha Hb Hne. specialize (H a Ha).
    rewrite forallb_forall in H. specialize (H b Hb).
    apply orb_true_iff in H. destruct H as [H | H].
    + apply key_eqb_eq in H. contradiction.
    + unfold comparableb in H. destruct (key_lt a b); [eauto | discriminate].
  - intros H a Ha. apply forallb_forall. intros b Hb.
    destruct (key_eqb a b) eqn:E; [reflexivity |]. simpl.
    apply key_eqb_neq in E. destruct (H a b Ha Hb E) as [r Hr].
    unfold comparableb. now rewrite Hr.
Qed.

Lemma mapM_succeeds {X Y} (f : X -> result Y) (l : list X) :
  (exists r, mapM f l = Ok r) <-> forall x, In x l -> exists y, f x = Ok y.
Proof.
  split.
  - intros [r Hr] x Hx. apply mapM_Ok in Hr.
    induction Hr as [| a b l r Hab _ IH]; [destruct Hx |].
    destruct Hx as [<- | Hx]; eauto.
  - induction l as [| a l IH]; intros H; simpl; [eauto |].
    destruct (H a) as [y Hy]; [now left |].
    destruct IH as [r Hr]; [intros x Hx; apply H; now right |].
    rewrite Hy, Hr. simpl. eauto.
Qed.

(** [sorted] succeeds exactly when any two different elements can be
    compared. *)
Lemma sorted_succeeds (l : list Key) :
  NoDup l ->
  (exists s, sorted l = Ok s)
  <-> forall a b, In a l -> In b l -> a <> b -> exists r, key_lt a b = Ok r.
Proof.
  intros Hnd. split.
  - intros [s Hs] a b Ha Hb Hne.
    destruct (sorted_Ok l s Hnd Hs) as [Hp Hsorted].
    apply (Permutation_in _ Hp) in Ha. apply (Permutation_in _ Hp) in Hb.
    destruct (sorted_pairs s a b Hsorted Ha Hb) as [? | [H | H]];
      [contradiction | eauto |].
    apply key_lt_asym in H. eauto.
  - intros H. destruct (sorted l) as [s | e] eqn:E; [eauto |].
    destruct (sorted_Raise l e Hnd E) as (_ & a & b & Ha & Hb & Hne & Hcmp).
    destruct (H a b Ha Hb Hne) as [r Hr]. congruence.
Qed.

Lemma pair_lt_by_key (k1 f1 k2 f2 : Key) :
  k1 <> k2 -> key_lt (KTuple [k1; f1]) (KTuple [k2; f2]) = key_lt k1 k2.
Proof.
  intros Hne. apply key_eqb_neq in Hne. simpl. now rewrite Hne.
Qed.

Lemma forallb_snd_Forall (P : PyVal -> bool) (items : list (Key * PyVal)) :
  forallb (fun kv => P (snd kv)) items = true
  <-> forall k v, In (k, v) items -> P v = true.
Proof.
  rewrite forallb_forall. split.
  - intros H k v Hin. apply (H (k, v) Hin).
  - intros H [k v] Hin. simpl. eauto.
Qed.

(** The frozen items of a dict can be sorted exactly when its keys can be
    compared with one another. *)
Lemma frozen_items_sortable (items : list (Key * PyVal)) (pairs : list Key) :
  dict_wf items ->
  mapM freeze_item items = Ok pairs ->
  (exists s, sorted pairs = Ok s) <-> all_comparable (dict_keys items) = true.
Proof.
  intros Hwf Hpairs.
  rewrite (sorted_succeeds pairs (freeze_items_NoDup _ _ Hwf Hpairs)).
  rewrite all_comparable_spec. split.
  - intros H k1 k2 H1 H2 Hne.
    apply in_map_iff in H1. destruct H1 as ([k1' v1] & <- & H1).
    apply in_map_iff in H2. destruct H2 as ([k2' v2] & <- & H2).
    simpl in *.
    assert (Hf : forall k v, In (k, v) items ->
              exists fv, _freeze v = Ok fv /\ In (KTuple [k; fv]) pairs).
    { intros k v Hin.
      destruct (proj1 (mapM_succeeds freeze_item items)
                  (ex_intro _ pairs Hpairs) (k, v) Hin) as [p Hp].
      unfold freeze_item in Hp. apply bind_Ok in Hp.
      destruct Hp as (fv & Hfv & _). simpl in Hfv. exists fv.
      split; [assumption |].
      apply (freeze_items_In items pairs _ Hpairs). exists k, v, fv. auto. }
    destruct (Hf _ _ H1) as (f1 & _ & Hp1).
    destruct (Hf _ _ H2) as (f2 & _ & Hp2).
    destruct (H _ _ Hp1 Hp2) as [r Hr]; [congruence |].
    rewrite pair_lt_by_key in Hr by assumption. eauto.
  - intros H p q Hp Hq Hne.
    apply (freeze_items_In items pairs _ Hpairs) in Hp, Hq.
    destruct Hp as (k1 & v1 & f1 & H1 & Hf1 & ->).
    destruct Hq as (k2 & v2 & f2 & H2 & Hf2 & ->).
    assert (Hk : k1 <> k2).
    { intros ->. apply Hne.
      apply (In_dict_get _ _ _ Hwf) in H1, H2. congruence. }
    rewrite pair_lt_by_key by assumption. apply H; [| | assumption].
    + change k1 with (fst (k1, v1)). now apply in_map.
    + change k2 with (fst (k2, v2)). now apply in_map.
Qed.

Lemma freezable_spec (v : PyVal) :
  well_formed v = true ->
  (freezable v = true <-> exists k, _freeze v = Ok k).
Proof.
  intros Hwf. revert Hwf.
  induction v as [| z | s | xs IH | xs IH | ks | items IH]
    using PyVal_nested_ind; intros Hwf;
    try (simpl; split; [eauto | reflexivity]).
  - simpl in *. rewrite forallb_forall in *. rewrite Forall_forall in IH.
    split.
    + intros Hf. destruct (proj2 (mapM_succeeds _freeze xs)) as [r Hr].
      { intros x Hx. apply (IH x Hx); auto. }
      rewrite Hr. simpl. eauto.
    + intros [k Hk] x Hx. apply bind_Ok in Hk. destruct Hk as (r & Hr & _).
      apply (IH x Hx); [auto |].
      apply (proj1 (mapM_succeeds _freeze xs)); eauto.
  - simpl in *. rewrite forallb_forall in *. rewrite Forall_forall in IH.
    split.
    + intros Hf. destruct (proj2 (mapM_succeeds _freeze xs)) as [r Hr].
      { intros x Hx. apply (IH x Hx); auto. }
      rewrite Hr. simpl. eauto.
    + intros [k Hk] x Hx. apply bind_Ok in Hk. destruct Hk as (r & Hr & _).
      apply (IH x Hx); [auto |].
      apply (proj1 (mapM_succeeds _freeze xs)); eauto.
  - cbn [well_formed] in Hwf. apply andb_true_iff in Hwf.
    destruct Hwf as [Hdist Hvals]. apply distinct_NoDup in Hdist.
    rewrite forallb_forall in Hvals. rewrite Forall_forall in IH.
    rewrite freeze_dict. cbn [freezable]. rewrite andb_true_iff.
    assert (Hitems : forallb (fun kv => freezable (snd kv)) items = true
                     <-> exists pairs, mapM freeze_item items = Ok pairs).
    { rewrite mapM_succeeds, forallb_forall. split.
      - intros H kv Hin. destruct (proj1 (IH kv Hin (Hvals kv Hin)))
          as [fv Hfv]; [auto |].
        unfold freeze_item. rewrite Hfv. simpl. eauto.
      - intros H kv Hin. apply (IH kv Hin (Hvals kv Hin)).
        destruct (H kv Hin) as [p Hp]. unfold freeze_item in Hp.
        apply bind_Ok in Hp. destruct Hp as (fv & Hfv & _). eauto. }
    split.
    + intros [Hf Hc]. apply Hitems in Hf. destruct Hf as [pairs Hpairs].
      destruct (proj2 (frozen_items_sortable items pairs Hdist Hpairs) Hc)
        as [s0 Hs0].
      rewrite Hpairs. simpl. rewrite Hs0. simpl. eauto.
    + intros [k Hk]. apply bind_Ok in Hk. destruct Hk as (pairs & Hpairs & Hk).
      apply bind_Ok in Hk. destruct Hk as (s0 & Hs0 & _).
      split; [apply Hitems; eauto |].
      apply (frozen_items_sortable items pairs Hdist Hpairs). eauto.
Qed.

Lemma string_keys_comparable (names : list string) :
  all_comparable (map KStr names) = true.
Proof.
  apply all_comparable_spec. intros a b Ha Hb _.
  apply in_map_iff in Ha, Hb.
  destruct Ha as (x & <- & _). destruct Hb as (y & <- & _). simpl. eauto.
Qed.

Lemma kwargs_dict_keys (kwargs : list (string * PyVal)) :
  dict_keys (map (fun kv => (KStr (fst kv), snd kv)) kwargs)
  = map KStr (map fst kwargs).
Proof. unfold dict_keys. rewrite !map_map. reflexivity. Qed.

Lemma kwargs_dict_wf (kwargs : list (string * PyVal)) :
  NoDup (map fst kwargs) ->
  dict_wf (map (fun kv => (KStr (fst kv), snd kv)) kwargs).
Proof.
  intros Hnd. unfold dict_wf. rewrite kwargs_dict_keys.
  induction Hnd as [| x l Hx _ IH]; simpl; constructor; [| assumption].
  intros Hin. apply in_map_iff in Hin.
  destruct Hin as (y & [= ->] & Hy). contradiction.
Qed.

(** A call that was answered from the cache is answered the same way
    whatever the order of its keyword arguments, once both orders give the
    same key. *)
Lemma wrapper_hit_same_key Env time_time fn_module fn_name fn args kw1 kw2
    (w w' : world Env) v :
  make_key fn_module fn_name args kw1 = make_key fn_module fn_name args kw2 ->
  wrapper Env time_time fn_module fn_name fn args kw1 w = (Ok (v, true), w') ->
  wrapper Env time_time fn_module fn_name fn args kw2 w = (Ok (v, true), w').
Proof.
  unfold wrapper. intros <-.
  destruct (make_key fn_module fn_name args kw1) as [key | e]; [| auto].
  destruct (TTLCache.get (time_time (env w)) key (cache w)) as [hit c1].
  destruct (negb (is_none hit)); [auto |].
  destruct (fn args kw1 (env w)) as [[value | x] env1]; [| discriminate].
  destruct (TTLCache.set (time_time env1) key value c1); discriminate.
Qed.

(** C8. Two dicts with the same items in different insertion orders freeze
    to the same result.  When the keys of every dict involved can be
    compared with one another that result is a key, the same for both
    orders: the sequence of the [(key, frozen value)] pairs in increasing
    order, an order that the keys decide.  So two calls that differ in the
    order of their keyword arguments derive the same cache key -- a key
    indeed, names being strings, once the argument values can be frozen --
    and share one entry: a hit for one is the same hit for the other, and
    the result that a call in one order has left in the cache is returned,
    as cached, to the call in the other order. *)
Theorem freeze_dict_order_independent (d1 d2 : list (Key * PyVal)) :
  Permutation d1 d2 ->
  dict_wf d1 ->
  _freeze (PDict d1) = _freeze (PDict d2)
  /\ (well_formed (PDict d1) = true ->
      freezable (PDict d1) = true ->
      exists s,
        _freeze (PDict d1) = Ok (KTuple s)
        /\ _freeze (PDict d2) = Ok (KTuple s))
  /\ (forall t, _freeze (PDict d1) = Ok t ->
        exists s,
          t = KTuple s
          /\ StronglySorted key_less s
          /\ length s = length d1
          /\ forall p,
              In p s
              <-> exists k v fv,
                    In (k, v) d1 /\ _freeze v = Ok fv /\ p = KTuple [k; fv])
  /\ (forall k1 f1 k2 f2,
        k1 <> k2 ->
        key_less (KTuple [k1; f1]) (KTuple [k2; f2]) <-> key_less k1 k2)
  /\ (forall fn_module fn_name args kw1 kw2,
        kwargs_dict kw1 = PDict d1 ->
        kwargs_dict kw2 = PDict d2 ->
        make_key fn_module fn_name args kw1
        = make_key fn_module fn_name args kw2
        /\ (forall Env time_time fn (w w' : world Env) v,
              wrapper Env time_time fn_module fn_name fn args kw1 w
              = (Ok (v, true), w') ->
              wrapper Env time_time fn_module fn_name fn args kw2 w
              = (Ok (v, true), w'))
        /\ (forallb well_formed args = true ->
            forallb freezable args = true ->
            forallb (fun kv => well_formed (snd kv)) d1 = true ->
            forallb (fun kv => freezable (snd kv)) d1 = true ->
            exists key,
              make_key fn_module fn_name args kw1 = Ok key
              /\ make_key fn_module fn_name args kw2 = Ok key
              /\ forall Env time_time fn (w : world Env) r env1,
                  fst (TTLCache.get (time_time (env w)) key (cache w))
                  = PNone ->
                  fn args kw1 (env w) = (Ok r, env1) ->
                  r <> PNone ->
                  TTLCache.inv (cache w) ->
                  (1 <= TTLCache.maxsize (cache w))%Z ->
                  0 <= TTLCache.ttl (cache w) ->
                  (forall k' e' v',
                      dict_get k' (TTLCache._store (cache w))
                      = Some (e', v') ->
                      e' <= time_time env1 + TTLCache.ttl (cache w)) ->
                  exists w1,
                    wrapper Env time_time fn_module fn_name fn args kw1 w
                    = (Ok (r, false), w1)
                    /\ calls w1 = S (calls w)
                    /\ wrapper Env time_time fn_module fn_name fn args kw2 w1
                       = (Ok (r, true), w1))).
Proof.
  intros Hp Hwf.
  assert (Heq : _freeze (PDict d1) = _freeze (PDict d2)).
  { rewrite !freeze_dict.
    pose proof (mapM_freeze_item_Permutation d1 d2 Hp) as Hsame.
    destruct (mapM freeze_item d1) as [p1 | e1] eqn:E1;
      destruct (mapM freeze_item d2) as [p2 | e2] eqn:E2;
      simpl in Hsame; try contradiction; [| now subst].
    simpl. rewrite (sorted_Permutation p1 p2 Hsame); [reflexivity |].
    eapply freeze_items_NoDup; eauto. }
  assert (Hshape : forall t, _freeze (PDict d1) = Ok t ->
            exists s,
              t = KTuple s
              /\ StronglySorted key_less s
              /\ length s = length d1
              /\ forall p,
                  In p s
                  <-> exists k v fv,
                        In (k, v) d1 /\ _freeze v = Ok fv
                        /\ p = KTuple [k; fv]).
  { intros t Ht. rewrite freeze_dict in Ht.
    apply bind_Ok in Ht. destruct Ht as (pairs & Hpairs & Ht).
    apply bind_Ok in Ht. destruct Ht as (s & Hs & [= <-]).
    destruct (sorted_Ok pairs s) as [Hperm Hsorted];
      [eapply freeze_items_NoDup; eauto | assumption |].
    exists s. split; [reflexivity |]. split; [assumption |]. split.
    + rewrite <- (Permutation_length Hperm). symmetry.
      eapply Forall2_length, freeze_items_spec, Hpairs.
    + intros p. rewrite <- (freeze_items_In d1 pairs p Hpairs).
      split; apply Permutation_in; [now apply Permutation_sym | assumption]. }
  assert (Hok : well_formed (PDict d1) = true ->
                freezable (PDict d1) = true ->
                exists s,
                  _freeze (PDict d1) = Ok (KTuple s)
                  /\ _freeze (PDict d2) = Ok (KTuple s)).
  { intros Hw Hf.
    destruct (proj1 (freezable_spec (PDict d1) Hw) Hf) as [t Ht].
    destruct (Hshape t Ht) as (s & -> & _).
    exists s. split; [exact Ht | now rewrite <- Heq]. }
  split; [exact Heq |]. split; [exact Hok |]. split; [exact Hshape |].
  split; [intros k1 f1 k2 f2; apply pair_less_by_key |].
  intros fn_module fn_name args kw1 kw2 H1 H2.
  assert (Hkey : make_key fn_module fn_name args kw1
                 = make_key fn_module fn_name args kw2).
  { unfold make_key. now rewrite H1, H2, Heq. }
  split; [exact Hkey |]. split.
  { intros Env time_time fn w w' v. now apply wrapper_hit_same_key. }
  intros Hwa Hfa Hwv Hfv.
  destruct (proj1 (freezable_spec (PTuple args) Hwa) Hfa) as [ka Hka].
  destruct Hok as (s & Hs & _).
  { cbn [well_formed]. apply andb_true_iff. split; [| exact Hwv].
    now apply distinct_NoDup. }
  { cbn [freezable]. apply andb_true_iff. split; [exact Hfv |].
    injection H1 as <-. rewrite kwargs_dict_keys.
    apply string_keys_comparable. }
  assert (Hk1 : make_key fn_module fn_name args kw1
                = Ok (KTuple [KStr fn_module; KStr fn_name; ka; KTuple s])).
  { unfold make_key. rewrite Hka, H1, Hs. reflexivity. }
  eexists. split; [exact Hk1 |]. split; [now rewrite <- Hkey |].
  intros Env time_time fn w r env1 Hmiss Hfn Hr Hinv Hmax Httl Hold.
  destruct (wrapper_stores Env time_time fn_module fn_name fn args kw1 _
              w r env1 Hk1 Hmiss Hfn Hinv Hmax Hold) as (c2 & Hw & Hentry).
  eexists. split; [exact Hw |]. split; [reflexivity |].
  eapply wrapper_hit.
  - rewrite <- Hkey. exact Hk1.
  - exact Hentry.
  - cbn [env]. lra.
  - exact Hr.
Qed.

Lemma freeze_dict_order_independent_witness :
  (_freeze (PDict [(KStr "a", PInt 1); (KStr "b", PInt 2)])
   = Ok (KTuple [KTuple [KStr "a"; KInt 1]; KTuple [KStr "b"; KInt 2]])
   /\ _freeze (PDict [(KStr "b", PInt 2); (KStr "a", PInt 1)])
      = Ok (KTuple [KTuple [KStr "a"; KInt 1]; KTuple [KStr "b"; KInt 2]]))
  /\ exists key w1,
      make_key "m" "f" [] [("x"%string, PInt 1); ("y"%string, PInt 2)]
      = Ok key
      /\ make_key "m" "f" [] [("y"%string, PInt 2); ("x"%string, PInt 1)]
         = Ok key
      /\ wrapper Q read_clock "m" "f" returns_42 []
           [("x"%string, PInt 1); ("y"%string, PInt 2)]
           (mkWorld 0 (TTLCache.init 1024 600) 0)
         = (Ok (PInt 42, false), w1)
      /\ wrapper Q read_clock "m" "f" returns_42 []
           [("y"%string, PInt 2); ("x"%string, PInt 1)] w1
         = (Ok (PInt 42, true), w1).
Proof.
  split.
  - destruct (freeze_dict_order_independent
                [(KStr "a", PInt 1); (KStr "b", PInt 2)]
                [(KStr "b", PInt 2); (KStr "a", PInt 1)])
      as (_ & Hok & _).
    + apply perm_swap.
    + unfold dict_wf. simpl.
      constructor; [simpl; intros [H | []]; discriminate |].
      constructor; [intros [] | constructor].
    + destruct Hok as (s & H1 & H2); [reflexivity | reflexivity |].
      pose proof H1 as H1'. vm_compute in H1'. injection H1' as <-.
      split; assumption.
  - destruct (freeze_dict_order_independent
                [(KStr "x", PInt 1); (KStr "y", PInt 2)]
                [(KStr "y", PInt 2); (KStr "x", PInt 1)])
      as (_ & _ & _ & _ & Hcalls).
    + apply perm_swap.
    + unfold dict_wf. simpl.
      constructor; [simpl; intros [H | []]; discriminate |].
      constructor; [intros [] | constructor].
    + destruct (Hcalls "m"%string "f"%string []
                  [("x"%string, PInt 1); ("y"%string, PInt 2)]
                  [("y"%string, PInt 2); ("x"%string, PInt 1)]
                  eq_refl eq_refl)
        as (_ & _ & Hshare).
      destruct Hshare as (key & Hk1 & Hk2 & Hshare);
        [reflexivity | reflexivity | reflexivity | reflexivity |].
      destruct (Hshare Q read_clock returns_42
                  (mkWorld 0 (TTLCache.init 1024 600) 0) (PInt 42) 0)
        as (w1 & Hfirst & _ & Hsecond).
      * pose proof Hk1 as Hk. vm_compute in Hk. injection Hk as <-.
        reflexivity.
      * reflexivity.
      * discriminate.
      * split; [constructor | unfold TTLCache.size; simpl; lia].
      * simpl. lia.
      * simpl. lra.
      * simpl. discriminate.
      * exists key, w1. auto.
Defined.

(** C9. A set is frozen to the sequence of its elements in iteration
    order, whatever that order is: there are two sets with the same
    elements, listed in different orders, whose frozen forms differ. *)
Theorem freeze_set_keeps_iteration_order :
  (forall ks, _freeze (PSet ks) = Ok (KTuple (map freeze_key ks))
              /\ map freeze_key ks = ks)
  /\ exists xs ys,
      NoDup xs /\ Permutation xs ys
      /\ _freeze (PSet xs) <> _freeze (PSet ys).
Proof.
  split.
  { intros ks. split; [reflexivity |].
    pose proof (freeze_set ks) as H. simpl in H. congruence. }
  exists [KInt 0; KInt 8], [KInt 8; KInt 0]. split; [| split].
  - constructor; [simpl; intros [H | []]; discriminate |].
    constructor; [intros [] | constructor].
  - apply perm_swap.
  - rewrite !freeze_set. discriminate.
Qed.

(** * Further properties *)

(** ** TTLCache *)

Module TTLCacheMore.
Import TTLCache.

Lemma In_key_dict_get {V} (k : Key) (d : dict V) :
  In k (dict_keys d) -> exists v, dict_get k d = Some v.
Proof.
  intros Hin. destruct (dict_get k d) as [v |] eqn:E; [eauto |].
  apply dict_get_None in E. contradiction.
Qed.

(** X1. [_evict_if_needed] raises only on an empty store with a negative
    [maxsize], and then [ValueError] (from [min] on an empty dict).  When it
    returns, a store within [maxsize] is left alone, and an oversized one
    loses exactly one entry, however far above [maxsize] it is. *)
Theorem evict_if_needed_cases (c : t) :
  (forall e, _evict_if_needed c = Raise e
             <-> e = ValueError /\ _store c = [] /\ (maxsize c < 0)%Z)
  /\ (forall c', _evict_if_needed c = Ok c' ->
        maxsize c' = maxsize c /\ ttl c' = ttl c
        /\ ((size c <= maxsize c)%Z -> c' = c)
        /\ ((maxsize c < size c)%Z ->
            S (length (_store c')) = length (_store c)
            /\ forall x, In x (_store c') -> In x (_store c))).
Proof.
  unfold _evict_if_needed, size.
  destruct (Z.of_nat (length (_store c)) <=? maxsize c)%Z eqn:E.
  - apply Z.leb_le in E. split.
    + intros e. split; [discriminate |].
      intros (_ & Hnil & Hneg). rewrite Hnil in E. simpl in E. lia.
    + intros c' [= <-]. split; [reflexivity |]. split; [reflexivity |].
      split; [reflexivity | lia].
  - apply Z.leb_gt in E.
    destruct (oldest (_store c)) as [[k0 e0] |] eqn:Hold.
    + split.
      * intros e. split; [discriminate |]. intros (_ & Hnil & _).
        rewrite Hnil in Hold. discriminate.
      * intros c' [= <-]. cbn [maxsize ttl _store with_store].
        split; [reflexivity |]. split; [reflexivity |]. split; [lia |].
        intros _. split; [| intros x; apply dict_pop_In].
        destruct (TTLCacheFacts.oldest_spec _ _ _ Hold) as ([v0 Hin] & _).
        destruct (In_key_dict_get k0 (_store c)) as [v Hv].
        { change k0 with (fst (k0, (e0, v0))). now apply in_map. }
        now apply dict_pop_length in Hv.
    + assert (Hnil : _store c = []).
      { destruct (_store c) as [| it s] eqn:Hs; [reflexivity |].
        destruct (TTLCacheFacts.oldest_nonempty (it :: s)) as (k0 & e0 & H);
          [discriminate | congruence]. }
      rewrite Hnil in E. simpl in E. split.
      * intros e. split; [intros [= <-]; auto | now intros (-> & _)].
      * discriminate.
Qed.

(** X2. Overwriting a key that is present evicts nothing: the entry gets
    the new value and a fresh expiry in place, the keys and their order
    stay, and every other entry is as before. *)
Theorem set_overwrite_in_place (c : t) now k v e0 v0 :
  inv c ->
  dict_get k (_store c) = Some (e0, v0) ->
  exists c1,
    set now k v c = Ok c1
    /\ dict_keys (_store c1) = dict_keys (_store c)
    /\ dict_get k (_store c1) = Some (now + ttl c, v)
    /\ forall k', k' <> k ->
         dict_get k' (_store c1) = dict_get k' (_store c).
Proof.
  intros [Hwf Hsz] Hk. unfold size in Hsz.
  destruct (TTLCacheFacts.set_spec now k v c)
    as (c1 & Hset & _ & _ & Hfit & _).
  exists c1. split; [assumption |].
  rewrite Hfit by (rewrite (dict_setitem_length_old _ _ _ _ Hk); lia).
  split; [| split].
  - now rewrite dict_setitem_keys, Hk.
  - apply dict_get_setitem_eq.
  - intros k' Hne. apply dict_get_setitem_ne. congruence.
Qed.

Lemma set_overwrite_in_place_witness :
  exists c1,
    set 50 (KInt 1) (PInt 11)
      (mk 2 600 [(KInt 1, (100, PInt 10)); (KInt 2, (200, PInt 20))]) = Ok c1
    /\ dict_keys (_store c1) = [KInt 1; KInt 2].
Proof.
  destruct (set_overwrite_in_place
              (mk 2 600 [(KInt 1, (100, PInt 10)); (KInt 2, (200, PInt 20))])
              50 (KInt 1) (PInt 11) 100 (PInt 10))
    as (c1 & Hset & Hkeys & _).
  - split.
    + unfold dict_wf. simpl.
      constructor; [simpl; intros [H | []]; discriminate |].
      constructor; [intros [] | constructor].
    + unfold size. simpl. lia.
  - reflexivity.
  - exists c1. split; assumption.
Defined.

(** Expiry bound kept by a history whose clock readings do not exceed
    [t0]. *)
Lemma run_ops_expiry_bound ops c c' t0 :
  Forall (fun o => op_time o <= t0) ops ->
  (forall k e v, In (k, (e, v)) (_store c) -> e <= t0 + ttl c) ->
  run_ops ops c = Ok c' ->
  forall k e v, In (k, (e, v)) (_store c') -> e <= t0 + ttl c.
Proof.
  intros Hops. revert c. induction Hops as [| o ops Ho _ IH]; intros c Hc.
  - intros [= <-]. assumption.
  - simpl. intros H. apply bind_Ok in H. destruct H as (c1 & Hstep & Hrun).
    assert (Httl : ttl c1 = ttl c).
    { destruct o as [now key value | now key]; simpl in Hstep.
      - destruct (TTLCacheFacts.set_spec now key value c)
          as (c1' & Hset & _ & Ht & _). congruence.
      - injection Hstep as <-. apply get_params. }
    rewrite <- Httl. apply (IH c1); [| assumption].
    rewrite Httl.
    destruct o as [now key value | now key]; simpl in Hstep, Ho.
    + intros k e v Hin.
      destruct (set_store_In _ _ _ _ _ _ Hstep Hin) as [[= _ -> _] | Hin'];
        [lra | eauto].
    + injection Hstep as <-. intros k e v Hin.
      apply get_store_In in Hin. eauto.
Qed.

(** X3. With a clock that does not run backwards and room for at least one
    entry, a value just stored can be read back: after any history of calls
    at times up to [t0], [set(k, v)] at [t0] followed by [get(k)] at any time
    up to and including [t0 + ttl] returns [v]. *)
Theorem fresh_entry_is_readable maxsize ttl ops t0 k v :
  (1 <= maxsize)%Z ->
  Forall (fun o => op_time o <= t0) ops ->
  exists c c1,
    run_ops ops (init maxsize ttl) = Ok c
    /\ set t0 k v c = Ok c1
    /\ forall p, p <= t0 + ttl -> get p k c1 = (v, c1).
Proof.
  intros Hmax Hops.
  destruct (TTLCacheFacts.run_ops_inv ops (init maxsize ttl))
    as (c & Hrun & Hinv & Hm & Ht); [apply TTLCacheFacts.init_inv; lia |].
  simpl in Hm, Ht.
  destruct (TTLCacheFacts.set_entry_survives c t0 k v Hinv)
    as (c1 & Hset & _ & Hk).
  - lia.
  - intros k' e' v' Hk'. rewrite Ht.
    apply (run_ops_expiry_bound ops (init maxsize ttl) c t0 Hops)
      with (k := k') (v := v'); [simpl; tauto | assumption |].
    now apply dict_get_In.
  - exists c, c1. split; [assumption |]. split; [assumption |].
    intros p Hp. unfold get. rewrite Hk, Ht.
    destruct (Qltb (t0 + ttl) p) eqn:E; [| reflexivity].
    apply Qltb_lt in E. lra.
Qed.

Lemma fresh_entry_is_readable_witness :
  exists c c1,
    run_ops [OpSet 1 (KInt 1) (PInt 10); OpGet 2 (KInt 7)] (init 1 600) = Ok c
    /\ set 3 (KInt 2) (PInt 20) c = Ok c1
    /\ get 603 (KInt 2) c1 = (PInt 20, c1).
Proof.
  destruct (fresh_entry_is_readable 1 600
              [OpSet 1 (KInt 1) (PInt 10); OpGet 2 (KInt 7)]
              3 (KInt 2) (PInt 20))
    as (c & c1 & Hrun & Hset & Hget).
  - lia.
  - repeat constructor; simpl; lra.
  - exists c, c1. split; [assumption |]. split; [assumption |].
    apply Hget. lra.
Defined.

(** X4. A cache whose [maxsize] is zero or negative never holds an entry:
    every call of every history succeeds and leaves the store empty, so
    every [get] answers [None]. *)
Theorem no_capacity_holds_nothing maxsize ttl ops :
  (maxsize <= 0)%Z ->
  exists c,
    run_ops ops (init maxsize ttl) = Ok c
    /\ _store c = []
    /\ forall now k, get now k c = (PNone, c).
Proof.
  intros Hmax.
  assert (Hgen : forall c0, _store c0 = [] -> (TTLCache.maxsize c0 <= 0)%Z ->
            exists c, run_ops ops c0 = Ok c /\ _store c = []).
  { induction ops as [| o ops IH]; intros c0 Hnil Hm; simpl; [eauto |].
    destruct o as [now key value | now key]; simpl.
    - unfold set, _evict_if_needed. rewrite Hnil. simpl.
      destruct (1 <=? TTLCache.maxsize c0)%Z eqn:E;
        [apply Z.leb_le in E; lia |].
      rewrite key_eqb_refl. simpl. apply IH; simpl; auto.
    - unfold get. rewrite Hnil. simpl. apply IH; auto. }
  destruct (Hgen (init maxsize ttl)) as (c & Hrun & Hnil); simpl; auto.
  exists c. split; [assumption |]. split; [assumption |].
  intros now k. unfold get. now rewrite Hnil.
Qed.

Lemma no_capacity_holds_nothing_witness :
  exists c,
    run_ops [OpSet 1 (KInt 1) (PInt 10); OpSet 2 (KInt 2) (PInt 20)]
      (init 0 600) = Ok c
    /\ get 3 (KInt 2) c = (PNone, c).
Proof.
  destruct (no_capacity_holds_nothing 0 600
              [OpSet 1 (KInt 1) (PInt 10); OpSet 2 (KInt 2) (PInt 20)])
    as (c & Hrun & _ & Hget); [lia |].
  exists c. split; [assumption | apply Hget].
Defined.

(** X5. Reading is local and repeatable: a [get] never touches the entry of
    another key and never adds one; asked again at the same instant it gives
    the same answer and changes nothing more; and an answer other than
    [None] is also the answer at any earlier instant, with the cache left
    as it is. *)
Theorem get_local_and_repeatable (c : t) now k :
  dict_wf (_store c) ->
  (forall k', k' <> k ->
     dict_get k' (_store (snd (get now k c))) = dict_get k' (_store c))
  /\ (length (_store (snd (get now k c))) <= length (_store c))%nat
  /\ get now k (snd (get now k c)) = get now k c
  /\ (fst (get now k c) <> PNone ->
      forall earlier, earlier <= now -> get earlier k c = get now k c).
Proof.
  intros Hwf. unfold get.
  destruct (dict_get k (_store c)) as [[e v] |] eqn:E.
  - destruct (Qltb e now) eqn:Hexp; simpl.
    + split; [intros k' Hne; apply dict_get_pop_ne; congruence |].
      split; [apply dict_pop_length in E; lia |].
      split; [now rewrite dict_get_pop_eq | congruence].
    + rewrite E, Hexp. split; [reflexivity |]. split; [lia |].
      split; [reflexivity |]. intros _ earlier Hle.
      apply Qltb_ge in Hexp.
      destruct (Qltb e earlier) eqn:E'; [| reflexivity].
      apply Qltb_lt in E'. lra.
  - simpl. rewrite E. repeat split; auto; congruence.
Qed.

Lemma get_local_and_repeatable_witness :
  get 150 (KInt 1)
    (snd (get 150 (KInt 1)
            (mk 2 600 [(KInt 1, (100, PInt 10)); (KInt 2, (200, PInt 20))])))
  = get 150 (KInt 1)
      (mk 2 600 [(KInt 1, (100, PInt 10)); (KInt 2, (200, PInt 20))]).
Proof.
  apply (get_local_and_repeatable
           (mk 2 600 [(KInt 1, (100, PInt 10)); (KInt 2, (200, PInt 20))])
           150 (KInt 1)).
  unfold dict_wf. simpl.
  constructor; [simpl; intros [H | []]; discriminate |].
  constructor; [intros [] | constructor].
Defined.
End TTLCacheMore.

(** ** ttl_memoize *)

Lemma get_other_key now key k' (c : TTLCache.t) :
  k' <> key ->
  dict_get k' (TTLCache._store (snd (TTLCache.get now key c)))
  = dict_get k' (TTLCache._store c).
Proof.
  intros Hne. unfold TTLCache.get.
  destruct (dict_get key (TTLCache._store c)) as [[e v] |]; [| reflexivity].
  destruct (Qltb e now); [| reflexivity].
  simpl. apply dict_get_pop_ne. congruence.
Qed.

Lemma get_wf now key (c : TTLCache.t) :
  dict_wf (TTLCache._store c) ->
  dict_wf (TTLCache._store (snd (TTLCache.get now key c))).
Proof.
  intros Hwf. unfold TTLCache.get.
  destruct (dict_get key (TTLCache._store c)) as [[e v] |]; [| assumption].
  destruct (Qltb e now); [| assumption]. simpl. now apply dict_pop_wf.
Qed.

(** A [set] creates or changes no entry under another key. *)
Lemma set_other_key now key value (c c2 : TTLCache.t) k' x :
  dict_wf (TTLCache._store c) ->
  TTLCache.set now key value c = Ok c2 ->
  k' <> key ->
  dict_get k' (TTLCache._store c2) = Some x ->
  dict_get k' (TTLCache._store c) = Some x.
Proof.
  intros Hwf Hset Hne Hget.
  destruct (TTLCacheFacts.set_spec now key value c)
    as (c2' & Hset' & _ & _ & Hfit & Hevict).
  rewrite Hset in Hset'. injection Hset' as <-.
  set (s1 := dict_setitem key (now + TTLCache.ttl c, value)
               (TTLCache._store c)) in *.
  assert (Hwf1 : dict_wf s1) by now apply dict_setitem_wf.
  assert (Hs1 : dict_get k' s1 = Some x).
  { destruct (Z_le_gt_dec (Z.of_nat (length s1)) (TTLCache.maxsize c))
      as [Hle | Hgt].
    - now rewrite <- (Hfit Hle).
    - destruct Hevict as (k0 & e0 & v0 & _ & _ & Hst & _); [lia |].
      rewrite Hst in Hget. destruct (key_eqb k0 k') eqn:E.
      + apply key_eqb_eq in E. subst.
        rewrite dict_get_pop_eq in Hget by assumption. discriminate.
      + apply key_eqb_neq in E. now rewrite dict_get_pop_ne in Hget. }
  unfold s1 in Hs1. rewrite dict_get_setitem_ne in Hs1; congruence.
Qed.

Lemma make_key_Raise fn_module fn_name args kwargs e :
  make_key fn_module fn_name args kwargs = Raise e -> e = TypeError.
Proof.
  unfold make_key. intros H. apply bind_Raise in H.
  destruct H as [H | (fa & _ & H)]; [now apply freeze_Raise in H |].
  apply bind_Raise in H.
  destruct H as [H | (fk & _ & H)]; [now apply freeze_Raise in H |].
  discriminate.
Qed.

Section MemoizeMore.
Import TTLCache.
Variable Env : Type.
Variable time_time : Env -> Q.
Variable fn_module fn_name : string.
Variable fn : list PyVal -> list (string * PyVal) -> Env -> result PyVal * Env.

(** The cache a call leaves behind is the one its lookup left, or that one
    after a [set] under the key of the call. *)
Lemma wrapper_cache args kwargs key w :
  make_key fn_module fn_name args kwargs = Ok key ->
  let c1 := snd (get (time_time (env w)) key (cache w)) in
  let w' := snd (wrapper Env time_time fn_module fn_name fn args kwargs w) in
  cache w' = c1
  \/ exists now value, set now key value c1 = Ok (cache w').
Proof.
  intros Hkey c1 w'. unfold w', wrapper. rewrite Hkey.
  destruct (get (time_time (env w)) key (cache w)) as [hit c1'] eqn:Hg.
  simpl in c1. subst c1.
  destruct (negb (is_none hit)); [now left |].
  destruct (fn args kwargs (env w)) as [[value | x] env1]; [| now left].
  destruct (set (time_time env1) key value c1') as [c2 | e] eqn:Hset;
    [right; eauto | now left].
Qed.

(** X6. A memoized call keeps the cache in order: the keys stay distinct,
    the store stays within [maxsize], and [maxsize] and [ttl] are not
    touched, whatever the wrapped function does. *)
Theorem wrapper_keeps_invariant args kwargs w :
  inv (cache w) ->
  let w' := snd (wrapper Env time_time fn_module fn_name fn args kwargs w) in
  inv (cache w')
  /\ maxsize (cache w') = maxsize (cache w)
  /\ ttl (cache w') = ttl (cache w).
Proof.
  intros Hinv w'.
  destruct (make_key fn_module fn_name args kwargs) as [key | e] eqn:Hkey.
  - pose proof (wrapper_cache args kwargs key w Hkey) as Hc.
    cbv zeta in Hc. fold w' in Hc.
    pose proof (TTLCacheFacts.get_inv (time_time (env w)) key (cache w) Hinv)
      as Hinv1.
    destruct (get_params (time_time (env w)) key (cache w)) as [Hm1 Ht1].
    destruct Hc as [-> | (now & value & Hset)]; [auto |].
    destruct (TTLCacheFacts.set_spec now key value
                (snd (get (time_time (env w)) key (cache w))))
      as (c2 & Hset' & Hm & Ht & _).
    rewrite Hset in Hset'. injection Hset' as <-.
    split; [eapply TTLCacheFacts.set_inv; eauto |]. split; congruence.
  - unfold w', wrapper. rewrite Hkey. simpl. auto.
Qed.

(** X7. A memoized call adds no failure of its own.  When it raises, either
    the key could not be derived -- a [TypeError], raised before the cache is
    read and before [fn] is invoked, the world left as it was -- or [fn] was
    invoked once and raised that very exception. *)
Theorem wrapper_adds_no_failure args kwargs w e w' :
  wrapper Env time_time fn_module fn_name fn args kwargs w = (Raise e, w') ->
  (make_key fn_module fn_name args kwargs = Raise e
   /\ e = TypeError /\ w' = w)
  \/ (exists env1, fn args kwargs (env w) = (Raise e, env1)
                   /\ env w' = env1 /\ calls w' = S (calls w)).
Proof.
  unfold wrapper.
  destruct (make_key fn_module fn_name args kwargs) as [key | e0] eqn:Hkey.
  - destruct (get (time_time (env w)) key (cache w)) as [hit c1].
    destruct (negb (is_none hit)); [discriminate |].
    destruct (fn args kwargs (env w)) as [[value | x] env1].
    + destruct (TTLCacheFacts.set_spec (time_time env1) key value c1)
        as (c2 & Hset & _).
      rewrite Hset. discriminate.
    + intros [= <- <-]. right. exists env1. auto.
  - intros [= <- <-]. left. apply make_key_Raise in Hkey as He. auto.
Qed.


(** X8. A memoized call writes under its own key only: an entry found
    under another key afterwards was there before, unchanged.  In
    particular a call of one function never creates an entry that a
    function of another name or module, sharing the cache, could hit. *)
Theorem wrapper_writes_own_key_only args kwargs key w :
  dict_wf (_store (cache w)) ->
  make_key fn_module fn_name args kwargs = Ok key ->
  let w' := snd (wrapper Env time_time fn_module fn_name fn args kwargs w) in
  (forall k' x, k' <> key ->
     dict_get k' (_store (cache w')) = Some x ->
     dict_get k' (_store (cache w)) = Some x)
  /\ (forall other_module other_name args' kwargs' k',
        (other_module, other_name) <> (fn_module, fn_name) ->
        make_key other_module other_name args' kwargs' = Ok k' ->
        dict_get k' (_store (cache w)) = None ->
        dict_get k' (_store (cache w')) = None).
Proof.
  intros Hwf Hkey w'.
  assert (Hown : forall k' x, k' <> key ->
            dict_get k' (_store (cache w')) = Some x ->
            dict_get k' (_store (cache w)) = Some x).
  { intros k' x Hne Hget.
    pose proof (wrapper_cache args kwargs key w Hkey) as Hc.
    cbv zeta in Hc. fold w' in Hc.
    rewrite <- (get_other_key (time_time (env w)) key k' (cache w) Hne).
    destruct Hc as [<- | (now & value & Hset)]; [assumption |].
    eapply set_other_key; eauto. now apply get_wf. }
  split; [exact Hown |].
  intros other_module other_name args' kwargs' k' Hid Hkey' Hnone.
  destruct (dict_get k' (_store (cache w'))) as [x |] eqn:E; [| reflexivity].
  apply Hown in E; [congruence |].
  intros ->. apply Hid. unfold make_key in Hkey, Hkey'.
  apply bind_Ok in Hkey. destruct Hkey as (fa & _ & Hkey).
  apply bind_Ok in Hkey. destruct Hkey as (fk & _ & Hkey).
  apply bind_Ok in Hkey'. destruct Hkey' as (fa' & _ & Hkey').
  apply bind_Ok in Hkey'. destruct Hkey' as (fk' & _ & Hkey').
  congruence.
Qed.

(** X9. No sliding expiration.  Hits do not touch the entry: any number of
    calls in a row, made while an entry that holds a value other than [None]
    is live, return its value flagged as cached and leave the world as it
    is, expiry included.  Once the clock has passed the expiry of the entry,
    whatever it holds, the next call invokes [fn] again, and whatever it
    returns is not flagged as cached. *)
Theorem hits_do_not_extend_ttl args kwargs key w e v n :
  make_key fn_module fn_name args kwargs = Ok key ->
  dict_get key (_store (cache w)) = Some (e, v) ->
  (v <> PNone ->
   time_time (env w) <= e ->
   repeat_calls Env time_time fn_module fn_name fn n args kwargs w
   = (repeat (Ok (v, true)) n, w))
  /\ forall w2,
      cache w2 = cache w ->
      e < time_time (env w2) ->
      calls (snd (wrapper Env time_time fn_module fn_name fn args kwargs w2))
      = S (calls w2)
      /\ forall r b w',
          wrapper Env time_time fn_module fn_name fn args kwargs w2
          = (Ok (r, b), w') ->
          b = false.
Proof.
  intros Hkey Hget. split.
  - intros Hv Hnow. induction n as [| n IH]; [reflexivity |].
    cbn [repeat_calls repeat].
    rewrite (wrapper_hit Env time_time fn_module fn_name fn args kwargs key
               w e v Hkey Hget Hnow Hv).
    now rewrite IH.
  - intros w2 Hc2 Hlate.
    assert (Hmiss : fst (get (time_time (env w2)) key (cache w2)) = PNone).
    { unfold get. rewrite Hc2, Hget.
      apply Qltb_lt in Hlate. now rewrite Hlate. }
    destruct (fn args kwargs (env w2)) as [o env2] eqn:Hfn.
    pose proof (wrapper_miss Env time_time fn_module fn_name fn args kwargs
                  key w2 Hkey Hmiss _ _ Hfn) as Hw.
    cbv zeta in Hw. destruct o as [value | x].
    + destruct Hw as (c3 & _ & ->). split; [reflexivity |].
      now intros r b w' [= _ <- _].
    + rewrite Hw. split; [reflexivity | discriminate].
Qed.

(** X10. With a [maxsize] of zero or less nothing is memoized: on an empty
    cache every call whose key can be derived invokes [fn] and leaves the
    cache empty again. *)
Theorem no_capacity_no_memoization args kwargs key w :
  make_key fn_module fn_name args kwargs = Ok key ->
  (maxsize (cache w) <= 0)%Z ->
  _store (cache w) = [] ->
  let w' := snd (wrapper Env time_time fn_module fn_name fn args kwargs w) in
  calls w' = S (calls w)
  /\ _store (cache w') = []
  /\ maxsize (cache w') = maxsize (cache w).
Proof.
  intros Hkey Hmax Hnil w'. unfold w', wrapper, get.
  rewrite Hkey, Hnil. simpl.
  destruct (fn args kwargs (env w)) as [[value | x] env1]; [| now simpl].
  unfold set, _evict_if_needed. rewrite Hnil. simpl.
  destruct (1 <=? maxsize (cache w))%Z eqn:E; [apply Z.leb_le in E; lia |].
  rewrite key_eqb_refl. simpl. auto.
Qed.
End MemoizeMore.

Lemma wrapper_keeps_invariant_witness :
  TTLCache.inv
    (cache (snd (wrapper Q read_clock "m" "f" returns_42 [PStr "q"] []
                   (mkWorld 0 (TTLCache.init 1 600) 0)))).
Proof.
  apply (wrapper_keeps_invariant Q read_clock "m" "f" returns_42
           [PStr "q"] [] (mkWorld 0 (TTLCache.init 1 600) 0)).
  split; [constructor | unfold TTLCache.size; simpl; lia].
Defined.

Lemma wrapper_adds_no_failure_witness :
  exists env1,
    always_raises [PStr "q"] [] 0 = (Raise (OtherError "boom"), env1).
Proof.
  destruct (wrapper_adds_no_failure Q read_clock "m" "f" always_raises
              [PStr "q"] [] (mkWorld 0 (TTLCache.init 1 600) 0)
              (OtherError "boom") (mkWorld 0 (TTLCache.init 1 600) 1))
    as [(H & _) | (env1 & H & _)].
  - reflexivity.
  - discriminate.
  - exists env1. exact H.
Defined.

Lemma wrapper_writes_own_key_only_witness :
  dict_get (KTuple [KStr "m"; KStr "g"; KTuple [KStr "q"]; KTuple []])
    (TTLCache._store
       (cache (snd (wrapper Q read_clock "m" "f" returns_42 [PStr "q"] []
                      (mkWorld 0 (TTLCache.init 8 600) 0)))))
  = None.
Proof.
  apply (wrapper_writes_own_key_only Q read_clock "m" "f" returns_42
           [PStr "q"] [] sample_key (mkWorld 0 (TTLCache.init 8 600) 0))
    with (other_module := "m"%string) (other_name := "g"%string)
         (args' := [PStr "q"]) (kwargs' := []).
  - constructor.
  - reflexivity.
  - discriminate.
  - reflexivity.
  - reflexivity.
Defined.

Lemma hits_do_not_extend_ttl_witness :
  repeat_calls Q read_clock "m" "f" returns_42 3 [PStr "q"] []
    (mkWorld 10 (TTLCache.mk 8 600 [(sample_key, (50, PInt 1))]) 0)
  = ([Ok (PInt 1, true); Ok (PInt 1, true); Ok (PInt 1, true)],
     mkWorld 10 (TTLCache.mk 8 600 [(sample_key, (50, PInt 1))]) 0).
Proof.
  apply (hits_do_not_extend_ttl Q read_clock "m" "f" returns_42
           [PStr "q"] [] sample_key
           (mkWorld 10 (TTLCache.mk 8 600 [(sample_key, (50, PInt 1))]) 0)
           50 (PInt 1) 3).
  - reflexivity.
  - reflexivity.
  - discriminate.
  - simpl. unfold read_clock. lra.
Defined.

Lemma no_capacity_no_memoization_witness :
  calls (snd (wrapper Q read_clock "m" "f" returns_42 [PStr "q"] []
                (mkWorld 0 (TTLCache.init 0 600) 0)))
  = 1%nat.
Proof.
  apply (no_capacity_no_memoization Q read_clock "m" "f" returns_42
           [PStr "q"] [] sample_key (mkWorld 0 (TTLCache.init 0 600) 0)).
  - reflexivity.
  - simpl. lia.
  - reflexivity.
Defined.

(** ** call_with_retry *)

Lemma Qsum_app (l m : list Q) : Qsum (l ++ m) == Qsum l + Qsum m.
Proof.
  induction l as [| x l IH]; simpl; [lra |]. rewrite IH. lra.
Qed.

Lemma Qsum_map_bound (f : nat -> Q) (B : Q) (start n : nat) :
  (forall i, f i <= B) ->
  Qsum (map f (seq start n)) <= inject_Z (Z.of_nat n) * B.
Proof.
  intros Hf. revert start. induction n as [| n IH]; intros start.
  - cbn [seq map Qsum fold_right]. change (inject_Z (Z.of_nat 0)) with 0.
    lra.
  - cbn [seq map Qsum fold_right]. fold (Qsum (map f (seq (S start) n))).
    rewrite Nat2Z.inj_succ, <- Z.add_1_r, inject_Z_plus.
    specialize (IH (S start)). specialize (Hf start).
    change (inject_Z 1) with 1. lra.
Qed.

Section RetryMore.
Variable A : Type.
Variable Env : Type.
Variable request_exec : Env -> result A * Env.
Variable time_sleep : Q -> Env -> Env.
Variable random_uniform : Q -> Q -> nat -> Q.
Variable retries : Z.
Variable base cap : Q.

Lemma loop_success_path fuel k attempt w s v s' :
  0 <= base -> 0 <= cap -> (forall i, 0 <= random_uniform 0 (1 # 4) i) ->
  (attempt + Z.of_nat k <= retries)%Z ->
  (attempt + Z.of_nat k <= 1024)%Z ->
  (k < fuel)%nat ->
  after_transient_failures A Env request_exec time_sleep random_uniform
    base cap k attempt (draws w) (renv w) = Some s ->
  request_exec s = (Ok v, s') ->
  retry_loop A Env request_exec time_sleep random_uniform retries base cap
    fuel attempt w
  = Some (Ok v,
          mkRun s' (attempts w + k + 1)
            (slept w
             ++ map (fun i =>
                       Qmin cap (base * inject_Z (2 ^ (attempt + Z.of_nat i)))
                       + random_uniform 0 (1 # 4) (draws w + i))
                  (seq 0 k))
            (draws w + k)).
Proof.
  intros Hb Hc Hj. revert fuel attempt w.
  induction k as [| k IH]; intros fuel attempt w Hle Hlim Hfuel Hrun Hok.
  - destruct fuel as [| fuel]; [lia |].
    simpl in Hrun. injection Hrun as <-.
    erewrite loop_ok by eassumption. simpl.
    rewrite app_nil_r, !Nat.add_0_r, Nat.add_1_r. reflexivity.
  - destruct fuel as [| fuel]; [lia |].
    simpl in Hrun.
    destruct (request_exec (renv w)) as [[v0 | [| | e | name]] s1] eqn:Hreq;
      try discriminate.
    destruct (extract_code e) as [code | x] eqn:Hcode; [| discriminate].
    destruct (is_transient code) eqn:Ht; [| discriminate].
    erewrite loop_retry; try eassumption; try lia.
    + rewrite (IH fuel (attempt + 1)%Z _); cbn [renv attempts slept draws];
        try lia; try assumption.
      do 3 f_equal.
      * lia.
      * rewrite <- app_assoc. f_equal. cbn [seq map app].
        rewrite Z.add_0_r, Nat.add_0_r. f_equal.
        rewrite <- seq_shift, map_map. apply map_ext. intros i.
        replace (attempt + 1 + Z.of_nat i)%Z
          with (attempt + Z.of_nat (S i))%Z by lia.
        replace (S (draws w) + i)%nat with (draws w + S i)%nat by lia.
        reflexivity.
      * lia.
    + now apply sleep_nonneg.
Qed.

(** X11. The success path: when the first [k] attempts fail with a
    transient status, [k] within the retry budget and no more than 1024,
    and the next attempt succeeds, [call_with_retry] returns that result
    after exactly [k + 1] attempts and [k] sleeps, the [i]-th one (from 0)
    lasting [min(cap, base * 2^i)] plus its jitter. *)
Theorem retry_success_path k w s v s' :
  0 <= base -> 0 <= cap -> (forall i, 0 <= random_uniform 0 (1 # 4) i) ->
  (Z.of_nat k <= retries)%Z ->
  (k <= 1024)%nat ->
  after_transient_failures A Env request_exec time_sleep random_uniform
    base cap k 0 (draws w) (renv w) = Some s ->
  request_exec s = (Ok v, s') ->
  call_with_retry A Env request_exec time_sleep random_uniform
    retries base cap w
  = Some (Ok v,
          mkRun s' (attempts w + k + 1)
            (slept w
             ++ map (fun i => Qmin cap (base * inject_Z (2 ^ Z.of_nat i))
                              + random_uniform 0 (1 # 4) (draws w + i))
                  (seq 0 k))
            (draws w + k)).
Proof.
  intros Hb Hc Hj Hk Hlim Hrun Hok. unfold call_with_retry.
  rewrite (loop_success_path _ k 0 w s v s'); auto; lia.
Qed.

(** X12. The time spent sleeping is bounded: with the jitter below a
    quarter of a second, [cap >= 0] and [retries >= 0], the sleeps of one
    call add up to at most [retries * (cap + 1/4)]. *)
Theorem total_sleep_bounded w r w' :
  (forall i, random_uniform 0 (1 # 4) i < 1 # 4) ->
  0 <= cap ->
  (0 <= retries)%Z ->
  call_with_retry A Env request_exec time_sleep random_uniform
    retries base cap w = Some (r, w') ->
  Qsum (slept w') <= Qsum (slept w) + inject_Z retries * (cap + (1 # 4)).
Proof.
  intros Hj Hc Hr Hrun. unfold call_with_retry in Hrun.
  apply loop_trace in Hrun. destruct Hrun as (n & Hs & _ & Hn & _).
  rewrite Hs, Qsum_app.
  assert (Hsum : Qsum (map (fun i =>
                              Qmin cap
                                (base * inject_Z (2 ^ (0 + Z.of_nat i)))
                              + random_uniform 0 (1 # 4) (draws w + i))
                         (seq 0 n))
                 <= inject_Z (Z.of_nat n) * (cap + (1 # 4))).
  { apply Qsum_map_bound. intros i.
    pose proof (backoff_le_cap base cap (0 + Z.of_nat i)).
    pose proof (Hj (draws w + i)%nat). lra. }
  assert (Hnr : inject_Z (Z.of_nat n) <= inject_Z retries).
  { rewrite <- Zle_Qle. lia. }
  assert (0 <= inject_Z (Z.of_nat n)).
  { change 0 with (inject_Z 0). rewrite <- Zle_Qle. lia. }
  nra.
Qed.

(** X13. Without a retry budget -- [retries] zero or negative -- the call
    is made once, with no sleep and no random number drawn, and its outcome
    is handed back; except that an [HttpError] whose status lookup fails
    is still replaced by the [AttributeError] of that lookup, which runs
    before the budget is looked at. *)
Theorem no_budget_single_attempt w o s' :
  (retries <= 0)%Z ->
  request_exec (renv w) = (o, s') ->
  exists r,
    call_with_retry A Env request_exec time_sleep random_uniform
      retries base cap w
    = Some (r, mkRun s' (S (attempts w)) (slept w) (draws w))
    /\ ((forall e, o = Raise (HttpError e) ->
                   exists code, extract_code e = Ok code) ->
        r = o)
    /\ (forall e x, o = Raise (HttpError e) -> extract_code e = Raise x ->
                    r = Raise (OtherError "AttributeError")).
Proof.
  intros Hr Hreq. unfold call_with_retry.
  assert (Hlt : (0 <? retries)%Z = false) by (apply Z.ltb_ge; lia).
  destruct o as [v | x].
  - exists (Ok v). split; [now apply loop_ok |].
    split; [reflexivity | discriminate].
  - destruct x as [| | e | name];
      try (eexists; split;
           [apply loop_propagate; [eassumption | discriminate] |];
           split; [reflexivity | discriminate]).
    destruct (extract_code e) as [code | y] eqn:Hcode.
    + exists (Raise (HttpError e)). split; [| split].
      * apply loop_propagate; [assumption |].
        intros e' [= <-]. exists code. split; [assumption |].
        rewrite Hlt. apply andb_false_r.
      * reflexivity.
      * intros e' x [= <-]. congruence.
    + exists (Raise y). split; [| split].
      * now apply loop_unreadable with (e := e).
      * intros H. destruct (H e eq_refl) as [code Hc]. congruence.
      * intros e' x [= <-] _.
        apply extract_code_Raise in Hcode.
        destruct Hcode as (_ & _ & ->). reflexivity.
Qed.

(** X14. A [cap] of minus a quarter of a second or less makes every retry
    fail: the sleep computed after a first transient failure is negative,
    [time.sleep] raises [ValueError], and the caller gets that instead of
    the failure of the remote call, after a single attempt. *)
Theorem negative_cap_raises_ValueError w e code s' :
  (forall i, random_uniform 0 (1 # 4) i < 1 # 4) ->
  cap <= - (1 # 4) ->
  (1 <= retries)%Z ->
  request_exec (renv w) = (Raise (HttpError e), s') ->
  extract_code e = Ok code ->
  is_transient code = true ->
  call_with_retry A Env request_exec time_sleep random_uniform
    retries base cap w
  = Some (Raise ValueError,
          mkRun s' (S (attempts w)) (slept w) (S (draws w))).
Proof.
  intros Hj Hcap Hr Hreq Hcode Ht. unfold call_with_retry.
  cbn [retry_loop]. rewrite Hreq, Hcode, Ht.
  replace (0 <? retries)%Z with true by (symmetry; apply Z.ltb_lt; lia).
  cbn [andb]. rewrite backoff_Ok by lia.
  replace (Qltb (Qmin cap (base * inject_Z (2 ^ 0))
                 + random_uniform 0 (1 # 4) (draws w)) 0)
    with true; [reflexivity |].
  symmetry. apply Qltb_lt.
  pose proof (backoff_le_cap base cap 0). pose proof (Hj (draws w)). lra.
Qed.
End RetryMore.

Lemma retry_success_path_witness :
  call_with_retry Z nat flaky_request no_sleep_nat fixed_jitter
    5 (1 # 2) 8 (mkRun 0%nat 0 [] 0)
  = Some (Ok 7%Z,
          mkRun 3%nat 3
            [Qmin 8 ((1 # 2) * inject_Z (2 ^ 0)) + (1 # 8);
             Qmin 8 ((1 # 2) * inject_Z (2 ^ 1)) + (1 # 8)] 2).
Proof.
  apply (retry_success_path Z nat flaky_request no_sleep_nat fixed_jitter
           5 (1 # 2) 8 2 (mkRun 0%nat 0 [] 0) 2%nat 7%Z 3%nat).
  - lra.
  - lra.
  - intros i. unfold fixed_jitter. lra.
  - lia.
  - lia.
  - reflexivity.
  - reflexivity.
Defined.

Lemma total_sleep_bounded_witness :
  Qsum [Qmin 8 ((1 # 2) * inject_Z (2 ^ 0)) + (1 # 8);
        Qmin 8 ((1 # 2) * inject_Z (2 ^ 1)) + (1 # 8)]
  <= Qsum [] + inject_Z 2 * (8 + (1 # 4)).
Proof.
  apply (total_sleep_bounded Z unit (failing_request 503) no_sleep
           fixed_jitter 2 (1 # 2) 8 (mkRun tt 0 [] 0)
           (Raise (HttpError
                     (mkHttpErr (Some 503%Z) (RespStatus (Some 503%Z)))))
           (mkRun tt 3
              [Qmin 8 ((1 # 2) * inject_Z (2 ^ 0)) + (1 # 8);
               Qmin 8 ((1 # 2) * inject_Z (2 ^ 1)) + (1 # 8)]
              2)).
  - intros i. unfold fixed_jitter. lra.
  - lra.
  - lia.
  - reflexivity.
Defined.

Lemma no_budget_single_attempt_witness :
  exists r,
    call_with_retry Z unit batch_error_request no_sleep fixed_jitter
      0 (1 # 2) 8 (mkRun tt 0 [] 0)
    = Some (r, mkRun tt 1 [] 0)
    /\ r = Raise (OtherError "AttributeError").
Proof.
  destruct (no_budget_single_attempt Z unit batch_error_request no_sleep
              fixed_jitter 0 (1 # 2) 8 (mkRun tt 0 [] 0)
              (Raise (HttpError (mkHttpErr None RespWithoutStatus))) tt)
    as (r & Hrun & _ & Hr).
  - lia.
  - reflexivity.
  - exists r. split; [exact Hrun |].
    apply (Hr (mkHttpErr None RespWithoutStatus)
              (OtherError "AttributeError")); reflexivity.
Defined.

Lemma negative_cap_raises_ValueError_witness :
  call_with_retry Z unit (failing_request 503) no_sleep fixed_jitter
    5 (1 # 2) (- (1)) (mkRun tt 0 [] 0)
  = Some (Raise ValueError, mkRun tt 1 [] 1).
Proof.
  apply (negative_cap_raises_ValueError Z unit (failing_request 503) no_sleep
           fixed_jitter 5 (1 # 2) (- (1)) (mkRun tt 0 [] 0)
           (mkHttpErr (Some 503%Z) (RespStatus (Some 503%Z)))
           (Some 503%Z) tt).
  - intros i. unfold fixed_jitter. lra.
  - lra.
  - lia.
  - reflexivity.
  - reflexivity.
  - reflexivity.
Defined.

(** ** _freeze *)

(** X15. [_freeze] fails exactly when some dict inside its argument has two
    keys that cannot be compared, and then with [TypeError]; on all other
    plain data it returns a key. *)
Theorem freeze_succeeds_iff_comparable (v : PyVal) :
  well_formed v = true ->
  (freezable v = true <-> exists k, _freeze v = Ok k)
  /\ (freezable v = false <-> _freeze v = Raise TypeError).
Proof.
  intros Hwf. pose proof (freezable_spec v Hwf) as Hmain.
  split; [exact Hmain |]. split.
  - intros Hf. destruct (_freeze v) as [k | e] eqn:E.
    + assert (freezable v = true) by (apply Hmain; eauto). congruence.
    + now rewrite (freeze_Raise v e E).
  - intros Hr. apply not_true_is_false. intros Ht.
    apply Hmain in Ht. destruct Ht as [k Hk]. congruence.
Qed.

Lemma freeze_succeeds_iff_comparable_witness :
  _freeze (PDict [(KInt 1, PNone); (KStr "a", PNone)]) = Raise TypeError.
Proof.
  apply (freeze_succeeds_iff_comparable
           (PDict [(KInt 1, PNone); (KStr "a", PNone)])).
  - reflexivity.
  - reflexivity.
Defined.

(** X16. Keyword arguments never stand in the way of a key: when the names
    of the keyword arguments are distinct, as in every call, and the
    argument values hold no dict with keys that cannot be compared, the key
    is derived, from the module, the name and the frozen arguments. *)
Theorem make_key_succeeds fn_module fn_name args kwargs :
  NoDup (map fst kwargs) ->
  forallb well_formed args = true ->
  forallb freezable args = true ->
  forallb (fun kv => well_formed (snd kv)) kwargs = true ->
  forallb (fun kv => freezable (snd kv)) kwargs = true ->
  exists fa fk,
    _freeze (PTuple args) = Ok (KTuple fa)
    /\ _freeze (kwargs_dict kwargs) = Ok (KTuple fk)
    /\ length fa = length args
    /\ length fk = length kwargs
    /\ make_key fn_module fn_name args kwargs
       = Ok (KTuple [KStr fn_module; KStr fn_name; KTuple fa; KTuple fk]).
Proof.
  intros Hnd Hwa Hfa Hwk Hfk.
  destruct (proj1 (freezable_spec (PTuple args) Hwa) Hfa) as [ka Hka].
  pose proof (kwargs_dict_wf kwargs Hnd) as Hdwf.
  assert (Hwd : well_formed (kwargs_dict kwargs) = true).
  { unfold kwargs_dict. cbn [well_formed]. apply andb_true_iff. split.
    - now apply distinct_NoDup.
    - rewrite forallb_forall in *. intros kv Hin.
      apply in_map_iff in Hin. destruct Hin as (kv' & <- & Hin). simpl. auto. }
  assert (Hfd : freezable (kwargs_dict kwargs) = true).
  { unfold kwargs_dict. cbn [freezable]. apply andb_true_iff. split.
    - rewrite forallb_forall in *. intros kv Hin.
      apply in_map_iff in Hin. destruct Hin as (kv' & <- & Hin). simpl. auto.
    - rewrite kwargs_dict_keys. apply string_keys_comparable. }
  destruct (proj1 (freezable_spec _ Hwd) Hfd) as [kk Hkk].
  pose proof Hka as Hka'. simpl in Hka'. apply bind_Ok in Hka'.
  destruct Hka' as (fa & Hfa' & [= <-]).
  pose proof Hkk as Hkk'. unfold kwargs_dict in Hkk'.
  rewrite freeze_dict in Hkk'. apply bind_Ok in Hkk'.
  destruct Hkk' as (pairs & Hpairs & Hkk').
  apply bind_Ok in Hkk'. destruct Hkk' as (fk & Hsorted & [= <-]).
  exists fa, fk. split; [assumption |]. split; [assumption |].
  split; [| split].
  - symmetry. eapply Forall2_length, mapM_Ok, Hfa'.
  - destruct (sorted_Ok pairs fk) as [Hperm _];
      [eapply freeze_items_NoDup; eauto | assumption |].
    rewrite <- (Permutation_length Hperm).
    apply mapM_Ok, Forall2_length in Hpairs.
    now rewrite length_map in Hpairs.
  - unfold make_key. rewrite Hka, Hkk. reflexivity.
Qed.

Lemma make_key_succeeds_witness :
  exists fa fk,
    make_key "m" "f" [PList [PInt 1; PInt 2]] [("x"%string, PSet [KInt 3])]
    = Ok (KTuple [KStr "m"; KStr "f"; KTuple fa; KTuple fk]).
Proof.
  destruct (make_key_succeeds "m" "f" [PList [PInt 1; PInt 2]]
              [("x"%string, PSet [KInt 3])])
    as (fa & fk & _ & _ & _ & _ & H).
  - simpl. constructor; [intros [] | constructor].
  - reflexivity.
  - reflexivity.
  - reflexivity.
  - reflexivity.
  - exists fa, fk. exact H.
Defined.

Lemma freeze_key_value (k : Key) : _freeze (key_value k) = Ok k.
Proof.
  induction k as [| a | a | ks IH] using Key_nested_ind; try reflexivity.
  simpl. replace (mapM _freeze (map key_value ks)) with (Ok ks (A := list Key));
    [reflexivity |].
  symmetry. induction IH as [| x xs Hx _ IHxs]; simpl; [reflexivity |].
  now rewrite Hx, IHxs.
Qed.

Lemma mapM_map {X Y W} (f : Y -> result W) (g : X -> Y) (l : list X) :
  mapM f (map g l) = mapM (fun x => f (g x)) l.
Proof.
  induction l as [| x l IH]; simpl; [reflexivity |]. now rewrite IH.
Qed.

Lemma mapM_ext {X Y} (f f' : X -> result Y) (l : list X) :
  (forall x, f x = f' x) -> mapM f l = mapM f' l.
Proof.
  intros H. induction l as [| x l IH]; simpl; [reflexivity |].
  now rewrite H, IH.
Qed.

Lemma mapM_app {X Y} (f : X -> result Y) (l m : list X) :
  mapM f (l ++ m) = (a <- mapM f l ;; b <- mapM f m ;; Ok (a ++ b)).
Proof.
  induction l as [| x l IH]; simpl.
  - destruct (mapM f m); reflexivity.
  - rewrite IH. destruct (f x); simpl; [| reflexivity].
    destruct (mapM f l); simpl; [| reflexivity].
    destruct (mapM f m); reflexivity.
Qed.

Lemma sorted_of_sorted (l : list Key) :
  StronglySorted key_less l -> sorted l = Ok l.
Proof.
  induction 1 as [| x l Hl IH Hx]; simpl; [reflexivity |].
  rewrite IH. simpl. destruct l as [| y l']; [reflexivity |]. simpl.
  inversion Hx as [| ? ? Hxy _]; subst.
  now rewrite (key_lt_asym _ _ Hxy).
Qed.

Lemma frozen_items_sorted (d : list (Key * PyVal)) (pairs : list Key) :
  StronglySorted key_less (dict_keys d) ->
  mapM freeze_item d = Ok pairs ->
  StronglySorted key_less pairs.
Proof.
  revert pairs. induction d as [| [k v] d IH]; simpl; intros pairs Hs.
  - intros [= <-]. constructor.
  - intros H. apply bind_Ok in H. destruct H as (p & Hp & H).
    apply bind_Ok in H. destruct H as (rest & Hrest & [= <-]).
    unfold freeze_item in Hp. apply bind_Ok in Hp.
    destruct Hp as (fv & _ & [= <-]). simpl in *.
    inversion Hs as [| ? ? Hs' Hk]; subst.
    constructor; [auto |]. rewrite Forall_forall in *. intros q Hq.
    apply (freeze_items_In d rest q Hrest) in Hq.
    destruct Hq as (k' & v' & f' & Hin & _ & ->).
    assert (Hkk : key_less k k').
    { apply Hk. change k' with (fst (k', v')). now apply in_map. }
    apply pair_less_by_key; [| assumption].
    intros ->. now apply key_lt_irrefl in Hkk.
Qed.

Lemma freeze_item_tuple (kv : Key * PyVal) :
  _freeze (PTuple [key_value (fst kv); snd kv]) = freeze_item kv.
Proof.
  unfold freeze_item. cbn [_freeze mapM].
  rewrite freeze_key_value. simpl. destruct (_freeze (snd kv)); reflexivity.
Qed.

Lemma freeze_dict_items (d : list (Key * PyVal)) :
  _freeze (dict_items d) = (pairs <- mapM freeze_item d ;; Ok (KTuple pairs)).
Proof.
  unfold dict_items.
  change (_freeze (PList ?l)) with (fs <- mapM _freeze l ;; Ok (KTuple fs)).
  rewrite mapM_map.
  rewrite (mapM_ext
             (fun kv => _freeze (PTuple [key_value (fst kv); snd kv]))
             freeze_item d freeze_item_tuple).
  reflexivity.
Qed.

(** X17. Different arguments, one key.  A list and a tuple with the same
    elements freeze alike, a set freezes like the tuple of its elements in
    iteration order, and a dict whose keys are in increasing order freezes
    like the list of its items; and two arguments that freeze alike give
    the same cache key to the calls they are passed to, which then share
    one entry. *)
Theorem frozen_forms_collide (d : list (Key * PyVal)) :
  StronglySorted key_less (dict_keys d) ->
  _freeze (PDict d) = _freeze (dict_items d)
  /\ (forall xs, _freeze (PList xs) = _freeze (PTuple xs))
  /\ (forall ks, _freeze (PSet ks) = _freeze (PTuple (map key_value ks)))
  /\ (forall v1 v2, _freeze v1 = _freeze v2 ->
        forall fn_module fn_name before after kwargs,
          make_key fn_module fn_name (before ++ v1 :: after) kwargs
          = make_key fn_module fn_name (before ++ v2 :: after) kwargs).
Proof.
  intros Hs. split; [| split; [| split]].
  - rewrite freeze_dict, freeze_dict_items.
    destruct (mapM freeze_item d) as [pairs | e] eqn:E; [| reflexivity].
    simpl. now rewrite (sorted_of_sorted pairs (frozen_items_sorted d _ Hs E)).
  - reflexivity.
  - intros ks. rewrite freeze_set. simpl. rewrite mapM_map.
    rewrite (mapM_ext _ (fun k => Ok k)) by apply freeze_key_value.
    replace (mapM (fun k : Key => Ok k) ks) with (Ok ks (A := list Key));
      [reflexivity |].
    induction ks as [| k ks IH]; simpl; [reflexivity |]. now rewrite <- IH.
  - intros v1 v2 Heq fn_module fn_name before after kwargs.
    unfold make_key. cbn [_freeze]. rewrite !mapM_app. simpl.
    now rewrite Heq.
Qed.

Lemma frozen_forms_collide_witness :
  _freeze (PDict [(KStr "a", PInt 1); (KStr "b", PInt 2)])
  = _freeze (PList [PTuple [PStr "a"; PInt 1]; PTuple [PStr "b"; PInt 2]]).
Proof.
  apply (frozen_forms_collide [(KStr "a", PInt 1); (KStr "b", PInt 2)]).
  simpl. repeat constructor.
Defined.

(** ** The resolver's string helpers *)

Section ResolverStrings.
Local Open Scope string_scope.

Lemma lower_char_idem (c : ascii) : lower_char (lower_char c) = lower_char c.
Proof.
  destruct c as [[] [] [] [] [] [] [] []]; reflexivity.
Qed.

Lemma lower_char_slash (c : ascii) :
  Ascii.eqb (lower_char c) "/" = Ascii.eqb c "/".
Proof.
  destruct c as [[] [] [] [] [] [] [] []]; reflexivity.
Qed.

Lemma lower_idem (s : string) : lower (lower s) = lower s.
Proof.
  induction s as [| c s IH]; simpl; [reflexivity |].
  now rewrite lower_char_idem, IH.
Qed.

Lemma rstrip_slash_lower (s : string) :
  rstrip_slash (lower s) = lower (rstrip_slash s).
Proof.
  induction s as [| c s IH]; simpl; [reflexivity |].
  rewrite IH. destruct (rstrip_slash s) as [| d r]; simpl; [| reflexivity].
  rewrite lower_char_slash. now destruct (Ascii.eqb c "/").
Qed.

Lemma rstrip_slash_idem (s : string) :
  rstrip_slash (rstrip_slash s) = rstrip_slash s.
Proof.
  induction s as [| c s IH]; simpl; [reflexivity |].
  destruct (rstrip_slash s) as [| d r] eqn:E.
  - destruct (Ascii.eqb c "/") eqn:Ec; simpl; [reflexivity |].
    now rewrite Ec.
  - remember (String d r) as t eqn:Ht. simpl. rewrite IH. now subst t.
Qed.

Lemma prefix_app (p s : string) :
  String.prefix p s = true -> exists t, s = p ++ t.
Proof.
  revert s. induction p as [| a p IH]; intros s.
  - intros _. now exists s.
  - destruct s as [| b s]; simpl; [discriminate |].
    destruct (ascii_dec a b) as [<- | _]; [| discriminate].
    intros H. destruct (IH s H) as [t ->]. now exists t.
Qed.

Lemma prefix_nil (s : string) : String.prefix "" s = true.
Proof. now destruct s. Qed.

(** What is left of a text once the scheme has been cut off. *)
Lemma strip_scheme (s : string) :
  String.prefix "http://" s || String.prefix "https://" s = true ->
  exists before after,
    split_once "://" s = Some (before, after)
    /\ (s = "http://" ++ after \/ s = "https://" ++ after).
Proof.
  intros H. apply orb_true_iff in H.
  destruct H as [H | H]; apply prefix_app in H; destruct H as [t ->].
  - exists "http", t. split; [| now left].
    simpl. now rewrite prefix_nil.
  - exists "https", t. split; [| now right].
    simpl. now rewrite prefix_nil.
Qed.

(** X18. [_normalize_domain] never fails -- after the test for a scheme
    the split on ["://"] always has a second part -- and what it returns is
    in lower case and does not end in a slash; the empty text is returned as
    it is. *)
Theorem normalize_domain_canonical (s : string) :
  exists r,
    _normalize_domain s = Ok r
    /\ lower r = r
    /\ rstrip_slash r = r
    /\ (s = "" -> r = "").
Proof.
  unfold _normalize_domain.
  destruct (String.eqb s "") eqn:E.
  - exists "". repeat split; reflexivity.
  - apply String.eqb_neq in E.
    assert (Hcanon : forall x,
              lower (lower (rstrip_slash x)) = lower (rstrip_slash x)
              /\ rstrip_slash (lower (rstrip_slash x))
                 = lower (rstrip_slash x)).
    { intros x. split; [apply lower_idem |].
      now rewrite rstrip_slash_lower, rstrip_slash_idem. }
    destruct (String.prefix "http://" s || String.prefix "https://" s) eqn:Hp.
    + destruct (strip_scheme s Hp) as (before & after & -> & _). simpl.
      eexists. split; [reflexivity |].
      destruct (Hcanon (if String.prefix "www." after
                        then drop 4 after else after)) as [H1 H2].
      split; [exact H1 |]. split; [exact H2 | congruence].
    + simpl. eexists. split; [reflexivity |].
      destruct (Hcanon (if String.prefix "www." s then drop 4 s else s))
        as [H1 H2].
      split; [exact H1 |]. split; [exact H2 | congruence].
Qed.

Lemma prefix_self_app (p t : string) : String.prefix p (p ++ t) = true.
Proof.
  induction p as [| a p IH]; simpl; [apply prefix_nil |].
  destruct (ascii_dec a a); [assumption | congruence].
Qed.

Lemma normalize_with_scheme (scheme t : string) :
  scheme = "http://" \/ scheme = "https://" ->
  _normalize_domain (scheme ++ t)
  = Ok (lower (rstrip_slash (if String.prefix "www." t
                             then drop 4 t else t))).
Proof.
  intros Hs. unfold _normalize_domain.
  assert (Hne : String.eqb (scheme ++ t) "" = false)
    by (destruct Hs as [-> | ->]; reflexivity).
  assert (Hp : String.prefix "http://" (scheme ++ t)
               || String.prefix "https://" (scheme ++ t) = true).
  { destruct Hs as [-> | ->].
    - now rewrite (prefix_self_app "http://" t).
    - rewrite (prefix_self_app "https://" t). apply orb_true_r. }
  assert (Hsplit : exists before,
            split_once "://" (scheme ++ t) = Some (before, t)).
  { destruct Hs as [-> | ->]; eexists; simpl; now rewrite prefix_nil. }
  destruct Hsplit as [before Hsplit].
  rewrite Hne, Hp, Hsplit. reflexivity.
Qed.

Lemma normalize_without_scheme (s : string) :
  String.prefix "http://" s = false ->
  String.prefix "https://" s = false ->
  _normalize_domain s
  = Ok (lower (rstrip_slash (if String.prefix "www." s
                             then drop 4 s else s))).
Proof.
  intros H1 H2. unfold _normalize_domain. rewrite H1, H2.
  destruct (String.eqb s "") eqn:E; [| reflexivity].
  apply String.eqb_eq in E. now subst.
Qed.

(** X19. The ways of writing one site normalize alike: for a text [h]
    that starts with no scheme and no [www.], putting [http://] or
    [https://] in front of it, or [www.], or both, does not change what
    [_normalize_domain] returns, which is [h] without its trailing slashes,
    in lower case. *)
Theorem normalize_domain_variants (h : string) :
  String.prefix "http://" h = false ->
  String.prefix "https://" h = false ->
  String.prefix "www." h = false ->
  _normalize_domain h = Ok (lower (rstrip_slash h))
  /\ _normalize_domain ("www." ++ h) = _normalize_domain h
  /\ _normalize_domain ("http://" ++ h) = _normalize_domain h
  /\ _normalize_domain ("https://" ++ h) = _normalize_domain h
  /\ _normalize_domain ("http://www." ++ h) = _normalize_domain h
  /\ _normalize_domain ("https://www." ++ h) = _normalize_domain h.
Proof.
  intros H1 H2 H3.
  assert (Hh : _normalize_domain h = Ok (lower (rstrip_slash h))).
  { rewrite (normalize_without_scheme h H1 H2). now rewrite H3. }
  assert (Hw : String.prefix "www." ("www." ++ h) = true)
    by apply prefix_self_app.
  rewrite Hh. split; [reflexivity |]. split; [| split; [| split; [| split]]].
  - rewrite normalize_without_scheme by reflexivity. now rewrite Hw.
  - rewrite (normalize_with_scheme "http://" h) by auto. now rewrite H3.
  - rewrite (normalize_with_scheme "https://" h) by auto. now rewrite H3.
  - change ("http://www." ++ h) with ("http://" ++ ("www." ++ h)).
    rewrite (normalize_with_scheme "http://" ("www." ++ h)) by auto.
    now rewrite Hw.
  - change ("https://www." ++ h) with ("https://" ++ ("www." ++ h)).
    rewrite (normalize_with_scheme "https://" ("www." ++ h)) by auto.
    now rewrite Hw.
Qed.

Lemma normalize_domain_variants_witness :
  _normalize_domain "https://www.Example.com/"
  = _normalize_domain "Example.com/".
Proof.
  apply (normalize_domain_variants "Example.com/"); reflexivity.
Defined.

Variable fdiv : nat -> nat -> Q.

Lemma fuzzy_loop_exact threshold query candidates best_match best_score c :
  In c candidates ->
  strip (lower c) = query ->
  fuzzy_loop fdiv threshold query candidates best_match best_score
  = Some query.
Proof.
  revert best_match best_score.
  induction candidates as [| c0 rest IH]; intros bm bs Hin Hc; [destruct Hin |].
  cbn [fuzzy_loop]. cbv zeta.
  destruct (String.eqb query (strip (lower c0))) eqn:E.
  - apply String.eqb_eq in E. now rewrite <- E.
  - destruct Hin as [-> | Hin].
    + apply String.eqb_neq in E. congruence.
    + now apply IH.
Qed.

Lemma fuzzy_loop_provenance threshold query candidates best_match best_score
    m :
  fuzzy_loop fdiv threshold query candidates best_match best_score = Some m ->
  best_match = Some m
  \/ exists c, In c candidates /\ m = strip (lower c)
               /\ related query m = true.
Proof.
  revert best_match best_score.
  induction candidates as [| c0 rest IH]; intros bm bs.
  - simpl. destruct (Qle_bool threshold bs); [auto | discriminate].
  - cbn [fuzzy_loop]. cbv zeta.
    set (candidate := strip (lower c0)).
    assert (Hhere : forall b, related query candidate = true ->
              Some candidate = Some m ->
              b = Some m
              \/ exists c, In c (c0 :: rest) /\ m = strip (lower c)
                           /\ related query m = true).
    { intros b Hrel [= <-]. right. exists c0. split; [now left | auto]. }
    destruct (String.eqb query candidate) eqn:Eeq.
    + apply Hhere. unfold related. now rewrite Eeq.
    + intros H. apply IH in H. destruct H as [H | (c & Hc & Hm & Hrel)];
        [| right; exists c; split; [now right | auto]].
      destruct (same_domain query candidate) eqn:Edom.
      * destruct (contains query candidate || contains candidate query)
          eqn:Econ.
        -- assert (Hrel : related query candidate = true).
           { unfold related. rewrite Edom. apply orb_true_r. }
           destruct (Qltb bs _) in H; simpl in H;
             destruct (Qltb _ float_0_8) in H; simpl in H;
             auto using Hhere.
        -- assert (Hrel : related query candidate = true).
           { unfold related. rewrite Edom. apply orb_true_r. }
           simpl in H. destruct (Qltb bs float_0_8) in H; simpl in H;
             auto using Hhere.
      * destruct (contains query candidate || contains candidate query)
          eqn:Econ; [| simpl in H; auto].
        assert (Hrel : related query candidate = true).
        { unfold related. rewrite <- !orb_assoc.
          rewrite (orb_assoc (contains query candidate)), Econ.
          simpl. apply orb_true_r. }
        destruct (Qltb bs _) in H; simpl in H; auto using Hhere.
Qed.

(** X20. An exact match wins: when the query is not empty and some
    candidate equals it once both are in lower case and stripped of
    surrounding white space, [_fuzzy_match] returns that text, whatever the
    other candidates, their order and the threshold. *)
Theorem fuzzy_match_exact query candidates threshold c :
  query <> "" ->
  In c candidates ->
  strip (lower c) = strip (lower query) ->
  _fuzzy_match fdiv query candidates threshold = Some (strip (lower query)).
Proof.
  intros Hq Hin Hc. unfold _fuzzy_match.
  apply String.eqb_neq in Hq. rewrite Hq.
  destruct candidates as [| c0 rest]; [destruct Hin |].
  now apply (fuzzy_loop_exact _ _ _ _ _ c).
Qed.

(** X21. [_fuzzy_match] makes nothing up: a text it returns is one of the
    candidates, in lower case and stripped, and it is related to the query
    so treated -- equal to it, contained in it or containing it, or ending in
    the same two dot-separated parts.  For an empty query or no candidates
    it returns nothing. *)
Theorem fuzzy_match_provenance query candidates threshold m :
  _fuzzy_match fdiv query candidates threshold = Some m ->
  query <> "" /\
  exists c, In c candidates /\ m = strip (lower c)
            /\ related (strip (lower query)) m = true.
Proof.
  unfold _fuzzy_match. destruct (String.eqb query "") eqn:E; [discriminate |].
  apply String.eqb_neq in E. destruct candidates as [| c0 rest];
    [discriminate |].
  intros H. split; [assumption |].
  apply fuzzy_loop_provenance in H.
  destruct H as [H | H]; [discriminate | exact H].
Qed.
End ResolverStrings.

Lemma fuzzy_match_exact_witness :
  _fuzzy_match (fun a b => Z.of_nat a # Pos.of_nat b) "Gate"%string
    [" My Gate Depot "%string; "gate"%string] float_0_6
  = Some "gate"%string.
Proof.
  apply (fuzzy_match_exact (fun a b => Z.of_nat a # Pos.of_nat b)
           "Gate"%string [" My Gate Depot "%string; "gate"%string]
           float_0_6 "gate"%string).
  - discriminate.
  - right. now left.
  - reflexivity.
Defined.

Lemma fuzzy_match_provenance_witness :
  exists c,
    In c ["example.com"%string; "www.example.com"%string]
    /\ "example.com"%string = strip (lower c).
Proof.
  destruct (fuzzy_match_provenance (fun a b => Z.of_nat a # Pos.of_nat b)
              "shop.example.com"%string
              ["example.com"%string; "www.example.com"%string]
              float_0_6 "example.com"%string)
    as (_ & c & Hin & Hm & _).
  - reflexivity.
  - exists c. split; assumption.
Defined.
